(** * The reactor and the inline executor of the asynchronous runtime

    A shallow embedding of [include/Async/Executor.hpp] (the [io] namespace:
    [Direction], [Source], [TimerOp], [Reactor], [ReactorLock::react]; the
    [async] namespace: [InlineExecutor]) and the properties of its
    specification that concern them.

    Conventions.
    - A [std::coroutine_handle<>] is a pointer to a coroutine frame: [None] is
      [nullptr], [Some c] is the frame of coroutine [c].
    - A [TimePoint] and a [TimePoint::duration] are counts of nanoseconds of
      the steady clock, as integers ([Z]).  The code holds them in signed
      64-bit counts, whose overflow has no defined result: [processTimers]
      is what the code computes in the runs where its arithmetic stays in
      that range, [processTimers_int64] marks the other runs as undefined,
      and a statement that rests on a difference of time points names the
      range as a hypothesis.
    - [size_t] counters that the code decrements or increments without a
      bound ([mSpawnCount], [mTicker]) wrap at [2^64].
    - The poller, the clock and the coroutine bodies are outside the code
      under study: what they answer is an input of the model.
    - Keys and identifiers ([size_t] values that are only issued, one after
      the other) are natural numbers.
    - A step on which the C++ program has no defined continuation
      (dereferencing an empty [std::optional] or a null pointer, resuming a
      null handle, a failed [assert], [value()] on an empty optional) is an
      explicit [Undefined] outcome. *)

From Stdlib Require Import ZArith List Bool Lia.
From stdpp Require Import base option list gmap.
From stdpp Require Import sorting.

(** ** Outcomes of fallible code *)

Inductive Fault : Type :=
| EmptyOptionalDeref   (* [*opt] on an [std::optional] that holds nothing *)
| NullPointerDeref     (* [p->m] on a null [std::shared_ptr] *)
| NullHandleResume     (* [h.resume()] on a null [std::coroutine_handle] *)
| AssertionFailed      (* a failed [assert] *)
| BadOptionalAccess    (* [opt.value()] on an [std::optional] that holds nothing *)
| SignedOverflow.      (* a 64-bit count of nanoseconds leaves its range *)

Inductive Outcome (A : Type) : Type :=
| Done (a : A)
| Undefined (f : Fault)
| OutOfFuel.

Arguments Done {A} a.
Arguments Undefined {A} f.
Arguments OutOfFuel {A}.

Definition obind {A B : Type} (m : Outcome A) (k : A -> Outcome B) : Outcome B :=
  match m with
  | Done a => k a
  | Undefined f => Undefined f
  | OutOfFuel => OutOfFuel
  end.

Notation "'let!' x ':=' m 'in' k" := (obind m (fun x => k))
  (at level 10, x pattern, m at level 100, k at level 200, only parsing).

(** [StdResult<T>] is declared in a header that is not part of the sources at
    hand: it is an expected-or-error type over [std::error_code].  An error
    code is its [errno] value. *)
Inductive StdResult (A : Type) : Type :=
| Ok (a : A)
| Unexpected (e : Z).

Arguments Ok {A} a.
Arguments Unexpected {A} e.

(** The members of [StdResult] are declared outside the sources at hand.
    The sources use it as an expected-or-error type: [insertIo] returns its
    value for success and [make_unexpected(r.error())] for an error.
    [emplace], in the expected types that come with [make_unexpected],
    constructs the value in place from the arguments it is given and leaves
    the result holding a value; a [StdResult<void>] has no value to
    construct, so after [emplace], with or without an argument, it is in
    the success state.  [args] is what the call passes. *)
Definition emplace (args : option Z) : StdResult unit := Ok tt.

(** [std::errc::interrupted] is [EINTR]. *)
Definition interrupted : Z := 4.

(** [size_t] arithmetic. *)
Definition size_t_wrap (z : Z) : Z := (z mod 2 ^ 64)%Z.

Module io.

(** ** Handles, parking slots and sources *)

Definition coroutine_handle : Type := option nat.
Definition nullptr : coroutine_handle := None.

Definition TimePoint : Type := Z.
Definition duration : Type := Z.

Record Direction : Type := { handle : coroutine_handle }.

(** [std::exchange(handle, nullptr)]: the old handle and the emptied slot. *)
Definition takeHandle (d : Direction) : coroutine_handle * Direction :=
  (handle d, {| handle := nullptr |}).

Definition isEmpty (d : Direction) : bool :=
  match handle d with None => true | Some _ => false end.

Record State : Type := { read : Direction; write : Direction }.

Record Source : Type := { fd : Z; key : nat; state : State }.

Definition setReadable (h : coroutine_handle) (s : Source) : bool * Source :=
  if isEmpty (read (state s))
  then (true, {| fd := fd s; key := key s;
                 state := {| read := {| handle := h |}; write := write (state s) |} |})
  else (false, s).

Definition setWritable (h : coroutine_handle) (s : Source) : bool * Source :=
  if isEmpty (write (state s))
  then (true, {| fd := fd s; key := key s;
                 state := {| read := read (state s); write := {| handle := h |} |} |})
  else (false, s).

(** [sys/Event.hpp] is not part of the sources at hand; an event carries a
    key and the two readiness flags, and [Event::None k] has both flags
    cleared.  The field is [ev_key] here because [key] is [Source]'s. *)
Record Event : Type := { ev_key : nat; readable : bool; writable : bool }.

Definition Event_None (k : nat) : Event :=
  {| ev_key := k; readable := false; writable := false |}.

Definition getEvent (s : Source) : Event :=
  let event := Event_None (key s) in
  let event := if negb (isEmpty (read (state s)))
               then {| ev_key := ev_key event; readable := true; writable := writable event |}
               else event in
  let event := if negb (isEmpty (write (state s)))
               then {| ev_key := ev_key event; readable := readable event; writable := true |}
               else event in
  event.

(** ** Timers *)

Inductive TimerOp : Type :=
| Insert (key : nat) (when : TimePoint) (handle : coroutine_handle)
| Remove (key : nat) (when : TimePoint).

(** [TimersType] is a [std::map] keyed by [(TimePoint, size_t)] pairs: an
    association list kept in increasing key order, one entry per key. *)
Definition TimerKey : Type := (TimePoint * nat)%type.
Definition TimersType : Type := list (TimerKey * coroutine_handle).

Definition key_eqb (a b : TimerKey) : bool :=
  (a.1 =? b.1)%Z && (a.2 =? b.2)%nat.

(** [std::pair]'s [operator<]: lexicographic. *)
Definition key_ltb (a b : TimerKey) : bool :=
  (a.1 <? b.1)%Z || ((a.1 =? b.1)%Z && (a.2 <? b.2)%nat).

(** [std::map::insert]: an entry whose key is present is left as it is. *)
Fixpoint timers_insert (k : TimerKey) (h : coroutine_handle) (m : TimersType) : TimersType :=
  match m with
  | [] => [(k, h)]
  | (k', h') :: m' =>
      if key_eqb k k' then (k', h') :: m'
      else if key_ltb k k' then (k, h) :: (k', h') :: m'
      else (k', h') :: timers_insert k h m'
  end.

(** [std::map::erase] by key. *)
Fixpoint timers_erase (k : TimerKey) (m : TimersType) : TimersType :=
  match m with
  | [] => []
  | (k', h') :: m' =>
      if key_eqb k k' then m' else (k', h') :: timers_erase k m'
  end.

Fixpoint timers_find (k : TimerKey) (m : TimersType) : option coroutine_handle :=
  match m with
  | [] => None
  | (k', h') :: m' => if key_eqb k k' then Some h' else timers_find k m'
  end.

(** [std::map::operator[]]: the mapped value; a missing key is first inserted
    with a value-initialised (null) handle. *)
Definition timers_at (k : TimerKey) (m : TimersType) : coroutine_handle * TimersType :=
  match timers_find k m with
  | Some h => (h, m)
  | None => (nullptr, timers_insert k nullptr m)
  end.

(** ** The reactor *)

(** [mSources] is a [Slab<std::shared_ptr<Source>>].  Only [insertIo] puts
    pointers in it, each from [std::make_shared], so an entry is never null:
    the slab entry holds the [Source] object itself, and the other owners of
    the shared pointer reach the same object through its key.
    [ID_GENERATOR] is the function-local static of [insertTimer]: one
    counter for all the reactors of a process, of which a reactor's state
    carries the current value;
    [notifies] counts the calls of [mPoller.notify]. *)
Record Reactor : Type := {
  mTicker : Z;
  mSources : gmap nat Source;
  mEvents : list Event;
  mTimers : TimersType;
  mTimerOps : list TimerOp;
  ID_GENERATOR : nat;
  notifies : nat
}.

(** The reactor built first in a process: no timer id was issued yet.  A
    reactor built later finds the counter where the earlier ones left it,
    [Reactor_at]. *)
Definition Reactor_new : Reactor :=
  {| mTicker := 0; mSources := ∅; mEvents := []; mTimers := []; mTimerOps := [];
     ID_GENERATOR := 0; notifies := 0 |}.

Definition with_mTicker (v : Z) (r : Reactor) : Reactor :=
  {| mTicker := v; mSources := mSources r; mEvents := mEvents r; mTimers := mTimers r;
     mTimerOps := mTimerOps r; ID_GENERATOR := ID_GENERATOR r; notifies := notifies r |}.
Definition with_mSources (v : gmap nat Source) (r : Reactor) : Reactor :=
  {| mTicker := mTicker r; mSources := v; mEvents := mEvents r; mTimers := mTimers r;
     mTimerOps := mTimerOps r; ID_GENERATOR := ID_GENERATOR r; notifies := notifies r |}.
Definition with_mEvents (v : list Event) (r : Reactor) : Reactor :=
  {| mTicker := mTicker r; mSources := mSources r; mEvents := v; mTimers := mTimers r;
     mTimerOps := mTimerOps r; ID_GENERATOR := ID_GENERATOR r; notifies := notifies r |}.
Definition with_mTimers (v : TimersType) (r : Reactor) : Reactor :=
  {| mTicker := mTicker r; mSources := mSources r; mEvents := mEvents r; mTimers := v;
     mTimerOps := mTimerOps r; ID_GENERATOR := ID_GENERATOR r; notifies := notifies r |}.
Definition with_mTimerOps (v : list TimerOp) (r : Reactor) : Reactor :=
  {| mTicker := mTicker r; mSources := mSources r; mEvents := mEvents r; mTimers := mTimers r;
     mTimerOps := v; ID_GENERATOR := ID_GENERATOR r; notifies := notifies r |}.
Definition with_ID_GENERATOR (v : nat) (r : Reactor) : Reactor :=
  {| mTicker := mTicker r; mSources := mSources r; mEvents := mEvents r; mTimers := mTimers r;
     mTimerOps := mTimerOps r; ID_GENERATOR := v; notifies := notifies r |}.
Definition with_notifies (v : nat) (r : Reactor) : Reactor :=
  {| mTicker := mTicker r; mSources := mSources r; mEvents := mEvents r; mTimers := mTimers r;
     mTimerOps := mTimerOps r; ID_GENERATOR := ID_GENERATOR r; notifies := v |}.

(** The reactor built when [issued] timer ids were issued in the process. *)
Definition Reactor_at (issued : nat) : Reactor := with_ID_GENERATOR issued Reactor_new.

(** [mPoller.notify()]; its failure is an assertion the model does not reach. *)
Definition notify (r : Reactor) : Reactor := with_notifies (S (notifies r)) r.

(** [mTimerOps] is a queue: [emplace] appends, [pop] takes the head. *)
Definition insertTimer (when : TimePoint) (h : coroutine_handle) (r : Reactor) : nat * Reactor :=
  let id := ID_GENERATOR r in
  let r := with_ID_GENERATOR (S id) r in
  let r := with_mTimerOps (mTimerOps r ++ [Insert id when h]) r in
  let r := notify r in
  (id, r).

Definition removeTimer (when : TimePoint) (id : nat) (r : Reactor) : Reactor :=
  with_mTimerOps (mTimerOps r ++ [Remove id when]) r.

(** [processTimeOps]: pops until the queue is empty, applying each operation
    to the map. *)
Fixpoint processTimeOps (ops : list TimerOp) (timers : TimersType) : TimersType :=
  match ops with
  | [] => timers
  | Insert k w h :: ops' => processTimeOps ops' (timers_insert (w, k) h timers)
  | Remove k w :: ops' => processTimeOps ops' (timers_erase (w, k) timers)
  end.

(** The scan of [processTimers]: keys with [when <= now] go to [ready], the
    others to [pending], both in map order. *)
Fixpoint partitionTimers (now : TimePoint) (timers : TimersType)
  : list TimerKey * list TimerKey :=
  match timers with
  | [] => ([], [])
  | (k, _) :: rest =>
      let '(ready, pending) := partitionTimers now rest in
      if (k.1 <=? now)%Z then (k :: ready, pending) else (ready, k :: pending)
  end.

(** [std::min_element] with the comparison [a.first < b.first]: the first of
    the smallest elements; [None] is the end iterator. *)
Fixpoint min_element (l : list TimerKey) : option TimerKey :=
  match l with
  | [] => None
  | a :: l' =>
      match min_element l' with
      | None => Some a
      | Some b => if (b.1 <? a.1)%Z then Some b else Some a
      end
  end.

(** The last loop of [processTimers]: [handles.push_back(mTimers[entry])]. *)
Fixpoint collectReady (ready : list TimerKey) (timers : TimersType)
    (handles : list coroutine_handle) : list coroutine_handle * TimersType :=
  match ready with
  | [] => (handles, timers)
  | entry :: ready' =>
      let '(h, timers) := timers_at entry timers in
      collectReady ready' timers (handles ++ [h])
  end.

(** [clock] is what [std::chrono::steady_clock::now()] returns in this call. *)
Definition processTimers (clock : TimePoint) (handles : list coroutine_handle) (r : Reactor)
  : option duration * list coroutine_handle * Reactor :=
  let timers := processTimeOps (mTimerOps r) (mTimers r) in
  let r := with_mTimerOps [] (with_mTimers timers r) in
  let now := (clock + 1)%Z in
  let '(ready, pending) := partitionTimers now (mTimers r) in
  let duration :=
    match ready with
    | [] =>
        match min_element pending with
        | Some it => Some (if (it.1 - now <? 0)%Z then 0%Z else (it.1 - now)%Z)
        | None => Some 0%Z
        end
    | _ :: _ => None
    end in
  let '(handles, timers) := collectReady ready (mTimers r) handles in
  (duration, handles, with_mTimers timers r).

(** The range of a signed 64-bit count. *)
Definition int64b (z : Z) : bool := (- 2 ^ 63 <=? z)%Z && (z <? 2 ^ 63)%Z.

(** [processTimers] with its arithmetic in 64 bits: [now() + 1ns] and, when
    no timer is due and one is pending, [it->first - now] for the earliest
    are the computations that can leave the range; the comparisons cannot. *)
Definition processTimers_int64 (clock : TimePoint) (handles : list coroutine_handle)
    (r : Reactor) : Outcome (option duration * list coroutine_handle * Reactor) :=
  let timers := processTimeOps (mTimerOps r) (mTimers r) in
  let now := (clock + 1)%Z in
  if negb (int64b now) then Undefined SignedOverflow
  else
    let '(ready, pending) := partitionTimers now timers in
    match ready, min_element pending with
    | [], Some it =>
        if int64b (it.1 - now) then Done (processTimers clock handles r)
        else Undefined SignedOverflow
    | _, _ => Done (processTimers clock handles r)
    end.

(** ** Sources in the slab *)

(** Modelled from the spec: [Slab.hpp] is not part of the sources at hand.
    The slab is a store with dense integer keys in which removed keys are
    reused; [vacantEntry().key] previews the key the next [insert] issues,
    here the least key not in use. *)
Fixpoint first_vacant (m : gmap nat Source) (fuel k : nat) : nat :=
  match fuel with
  | O => k
  | S fuel' => match m !! k with
               | None => k
               | Some _ => first_vacant m fuel' (S k)
               end
  end.

Definition vacantEntry_key (m : gmap nat Source) : nat := first_vacant m (size m) 0.

(** [Slab::insert]: stores the value under the vacant key and returns it. *)
Definition Slab_insert (v : Source) (m : gmap nat Source) : nat * gmap nat Source :=
  let k := vacantEntry_key m in (k, <[k := v]> m).

(** [Slab::tryRemove]: the removed value, if the key was in use. *)
Definition Slab_tryRemove (k : nat) (m : gmap nat Source) : option Source * gmap nat Source :=
  (m !! k, delete k m).

(** [insertIo].  [poller_add] is what [mPoller.add] answers.  The local
    [source] is a [std::shared_ptr<Source>]: [Some s] points to the object
    [s] and [None] is the null pointer.  [mSources.insert(std::move(source))]
    hands the pointer over to the slab and leaves [source] null. *)
Definition insertIo (poller_add : Z -> Event -> StdResult unit) (fd : Z) (r : Reactor)
  : Outcome (StdResult (option Source) * Reactor) :=
  let key := vacantEntry_key (mSources r) in
  let object : Source :=
    {| fd := fd; key := key;
       state := {| read := {| handle := nullptr |}; write := {| handle := nullptr |} |} |} in
  let '(k, slab) := Slab_insert object (mSources r) in
  let source : option Source := None in
  let r := with_mSources slab r in
  if negb (k =? key)%nat then Undefined AssertionFailed
  else
    (* mPoller.add(fd, Event::None(source->key)) *)
    match source with
    | None => Undefined NullPointerDeref
    | Some s =>
        match poller_add fd (Event_None (io.key s)) with
        | Unexpected e =>
            let '(e', slab) := Slab_tryRemove key (mSources r) in
            match e' with
            | None => Undefined AssertionFailed
            | Some _ => Done (Unexpected e, with_mSources slab r)
            end
        | Ok _ => Done (Ok source, r)
        end
    end.

(** [removeIo]; [poller_del] is what [mPoller.del] answers. *)
Definition removeIo (poller_del : Z -> StdResult unit) (source : Source) (r : Reactor)
  : Outcome (StdResult unit * Reactor) :=
  let '(e, slab) := Slab_tryRemove (key source) (mSources r) in
  match e with
  | None => Undefined AssertionFailed
  | Some _ => Done (poller_del (fd source), with_mSources slab r)
  end.

(** [updateIo]; [poller_mod] is what [mPoller.mod] answers.  The mask comes
    from the object the slab holds under [source.key], the descriptor from
    the argument. *)
Definition updateIo (poller_mod : Z -> Event -> StdResult unit) (source : Source) (r : Reactor)
  : Outcome (StdResult unit) :=
  match mSources r !! key source with
  | None => Undefined AssertionFailed
  | Some e =>
      let event := getEvent e in
      Done (poller_mod (fd source) event)
  end.

(** ** [ReactorLock::react] *)

(** What [mPoller.wait] answers: the number of events and the events it
    wrote to the buffer, or an error code. *)
Inductive WaitResult : Type :=
| WaitOk (count : nat) (events : list Event)
| WaitErr (e : Z).

(** The surroundings of one call of [react]: the clock readings of its two
    calls of [processTimers] and the poller's answer to the wait it is
    given. *)
Record ReactEnv : Type := {
  clock1 : TimePoint;
  poller_wait : option duration -> WaitResult;
  clock2 : TimePoint
}.

(** The [if]/[else if] chain that fills [waitTimeout]. *)
Definition effectiveWait (timeout nextTimer : option duration) : option duration :=
  match timeout, nextTimer with
  | Some t, None => Some t
  | Some t, Some n => Some (Z.min t n)
  | None, Some n => Some n
  | None, None => None
  end.

(** The body of the loop over [mEvents]. *)
Definition dispatchEvent (ev : Event) (acc : list coroutine_handle * Reactor)
  : list coroutine_handle * Reactor :=
  let '(handles, r) := acc in
  match mSources r !! ev_key ev with
  | Some src =>
      let st := state src in
      if writable ev then
        let '(h, w) := takeHandle (write st) in
        (handles ++ [h],
         with_mSources (<[ev_key ev := {| fd := fd src; key := key src;
                                          state := {| read := read st; write := w |} |}]>
                          (mSources r)) r)
      else if readable ev then
        let '(h, rd) := takeHandle (read st) in
        (handles ++ [h],
         with_mSources (<[ev_key ev := {| fd := fd src; key := key src;
                                          state := {| read := rd; write := write st |} |}]>
                          (mSources r)) r)
      else (handles, r)
  | None => (handles, r)
  end.

Definition dispatchEvents (evs : list Event) (handles : list coroutine_handle) (r : Reactor)
  : list coroutine_handle * Reactor :=
  fold_left (fun acc ev => dispatchEvent ev acc) evs (handles, r).

(** What one [react] did, up to its call of [e.execute(handles)]: the wait
    it handed to the poller, the handles it collected, its result and the
    reactor it leaves. *)
Record Reacted : Type := {
  waited : option duration;
  handles : list coroutine_handle;
  res : StdResult unit;
  after : Reactor
}.

Definition react_collect (timeout : option duration) (env : ReactEnv) (r : Reactor)
  : Outcome Reacted :=
  let handles : list coroutine_handle := [] in
  let '(nextTimer, handles, r) := processTimers (clock1 env) handles r in
  let waitTimeout := effectiveWait timeout nextTimer in
  let tick := size_t_wrap (mTicker r + 1) in
  let r := with_mTicker tick r in
  let r := with_mEvents [] r in
  let res : StdResult unit := Ok tt in
  match poller_wait env waitTimeout with
  | WaitOk count events =>
      let r := with_mEvents events r in
      if (count =? 0)%nat then
        match waitTimeout with
        | None => Undefined EmptyOptionalDeref
        | Some w =>
            if negb (w =? 0)%Z then
              let '(_, handles, r) := processTimers (clock2 env) handles r in
              Done {| waited := waitTimeout; handles := handles; res := res; after := r |}
            else
              Done {| waited := waitTimeout; handles := handles; res := res; after := r |}
        end
      else
        let '(handles, r) := dispatchEvents (mEvents r) handles r in
        Done {| waited := waitTimeout; handles := handles; res := res; after := r |}
  | WaitErr e =>
      if (e =? interrupted)%Z then
        Done {| waited := waitTimeout; handles := handles; res := emplace None;
                after := r |}
      else
        Done {| waited := waitTimeout; handles := handles; res := emplace (Some e);
                after := r |}
  end.

(** [Executor1]: the interface [react] hands the collected handles to.  The
    state [W] an executor works on contains the reactor, because the
    coroutines it resumes call back into it. *)
Class Executor1 (W : Type) : Type := {
  reactor : W -> Reactor;
  with_reactor : Reactor -> W -> W;
  execute : list coroutine_handle -> W -> Outcome W
}.

Definition react {W : Type} `{Executor1 W} (timeout : option duration) (env : ReactEnv) (w : W)
  : Outcome (StdResult unit * W) :=
  let! rd := react_collect timeout env (reactor w) in
  let! w := execute (handles rd) (with_reactor (after rd) w) in
  Done (res rd, w).

End io.

Module async.
Import io.

(** ** [InlineExecutor] *)

Record InlineExecutor : Type := {
  mQueue : list coroutine_handle;
  mSpawnCount : Z
}.

Definition InlineExecutor_new : InlineExecutor := {| mQueue := []; mSpawnCount := 0 |}.

Section Inline.
Context {T : Type}.

(** What the single thread of an inline runtime works on: the executor, the
    result slot [returnValue] of the running [block] (for [block(Task<>)],
    [T] is [unit] and [hasValue] is [returnValue] being filled), the reactor
    of [Runtime<InlineExecutor>], and [resumed], the history of the calls of
    [resume()], oldest first, kept for stating properties. *)
Record World : Type := {
  this : InlineExecutor;
  returnValue : option T;
  resumed : list nat;
  GetReactor : Reactor
}.

Definition with_this (v : InlineExecutor) (w : World) : World :=
  {| this := v; returnValue := returnValue w; resumed := resumed w; GetReactor := GetReactor w |}.
Definition with_returnValue (v : option T) (w : World) : World :=
  {| this := this w; returnValue := v; resumed := resumed w; GetReactor := GetReactor w |}.
Definition with_resumed (v : list nat) (w : World) : World :=
  {| this := this w; returnValue := returnValue w; resumed := v; GetReactor := GetReactor w |}.
Definition with_GetReactor (v : Reactor) (w : World) : World :=
  {| this := this w; returnValue := returnValue w; resumed := resumed w; GetReactor := v |}.

Definition with_mQueue (q : list coroutine_handle) (w : World) : World :=
  with_this {| mQueue := q; mSpawnCount := mSpawnCount (this w) |} w.
Definition with_mSpawnCount (n : Z) (w : World) : World :=
  with_this {| mQueue := mQueue (this w); mSpawnCount := n |} w.

(** Modelled from the spec: [Task.hpp] and the coroutine bodies are not part
    of the sources at hand.  A task exposes a single-shot resume that
    advances it to its next suspension point or to its end; what the
    executor and the reactor see of that run is the sequence of calls the
    coroutine makes into them, here a [Call] each.  A [DetachTask] made by
    [spawnDetach] or [block] runs its after-destroy hook when it ends. *)
Inductive Call : Type :=
| SpawnDetach (task : nat)               (* [spawnDetach(task)] *)
| AfterDestroySpawned                    (* the hook installed by [spawnDetach] *)
| AfterDestroyBlock (value : T)          (* the hook installed by [block] *)
| InsertTimer (when : TimePoint) (h : coroutine_handle)
| RemoveTimer (when : TimePoint) (id : nat)
| SetReadable (key : nat) (h : coroutine_handle)
| SetWritable (key : nat) (h : coroutine_handle).

(** [spawnDetach]: the handle of the [DetachTask] wrapping [task] is the
    handle of [task]. *)
Definition spawnDetach (task : nat) (w : World) : World :=
  let w := with_mSpawnCount (size_t_wrap (mSpawnCount (this w) + 1)) w in
  with_mQueue (mQueue (this w) ++ [Some task]) w.

(** [afterDestroyFn] of [spawnDetach]. *)
Definition afterDestroySpawned (w : World) : World :=
  let w := with_mSpawnCount (size_t_wrap (mSpawnCount (this w) - 1)) w in
  with_GetReactor (notify (GetReactor w)) w.

(** [afterDestroyFn] of [block]. *)
Definition afterDestroyBlock (value : T) (w : World) : World :=
  let w := with_returnValue (Some value) w in
  with_GetReactor (notify (GetReactor w)) w.

(** A parker is installed through the awaiter's pointer to the [Source]; a
    source that has left the slab is out of the reactor's sight. *)
Definition parkOn (set : coroutine_handle -> Source -> bool * Source)
    (k : nat) (h : coroutine_handle) (r : Reactor) : Reactor :=
  match mSources r !! k with
  | Some src => with_mSources (<[k := (set h src).2]> (mSources r)) r
  | None => r
  end.

Definition run_call (w : World) (c : Call) : World :=
  match c with
  | SpawnDetach task => spawnDetach task w
  | AfterDestroySpawned => afterDestroySpawned w
  | AfterDestroyBlock v => afterDestroyBlock v w
  | InsertTimer when h => with_GetReactor (insertTimer when h (GetReactor w)).2 w
  | RemoveTimer when id => with_GetReactor (removeTimer when id (GetReactor w)) w
  | SetReadable k h => with_GetReactor (parkOn setReadable k h (GetReactor w)) w
  | SetWritable k h => with_GetReactor (parkOn setWritable k h (GetReactor w)) w
  end.

(** The coroutine bodies: the calls coroutine [c] makes when resumed in [w]. *)
Definition Coroutines : Type := nat -> World -> list Call.

Section Run.
Variable code : Coroutines.

(** [handle.resume()]. *)
Definition resume (h : coroutine_handle) (w : World) : Outcome World :=
  match h with
  | None => Undefined NullHandleResume
  | Some c => Done (fold_left run_call (code c w) (with_resumed (resumed w ++ [c]) w))
  end.

(** [InlineExecutor::execute]. *)
Definition execute (handle : coroutine_handle) (w : World) : Outcome World :=
  resume handle w.

(** The call [e.execute(handles)] of [react] on an inline executor.  The
    sources at hand declare [Executor1::execute] on a span, give
    [InlineExecutor] one [execute], on a single handle, and no override for
    the span, while [block] passes [*this] to [react].  The span is taken
    here to go through that one [execute] handle by handle, in order.  This
    is a reading of the call, not source text; the specification words the
    call as pushing each handle on the run queue. *)
Fixpoint execute_span (handles : list coroutine_handle) (w : World) : Outcome World :=
  match handles with
  | [] => Done w
  | h :: handles' => let! w := execute h w in execute_span handles' w
  end.

#[local] Instance InlineExecutor_Executor1 : Executor1 World := {|
  io.reactor := GetReactor;
  io.with_reactor := with_GetReactor;
  io.execute := execute_span
|}.

(** The inner loop of [block]: [while (!mQueue.empty())]. *)
Fixpoint drain (fuel : nat) (w : World) : Outcome World :=
  match mQueue (this w) with
  | [] => Done w
  | handle :: rest =>
      match fuel with
      | O => OutOfFuel
      | S fuel' =>
          let w := with_mQueue rest w in
          let! w := resume handle w in
          drain fuel' w
      end
  end.

(** [mSpawnCount == 0 && returnValue.has_value() && mQueue.empty()]. *)
Definition exit_test (w : World) : bool :=
  (mSpawnCount (this w) =? 0)%Z
  && (match returnValue w with Some _ => true | None => false end)
  && (match mQueue (this w) with [] => true | _ :: _ => false end).

(** The outer loop of [block]: one [ReactEnv] for each call of [react]. *)
Fixpoint drive (fuel : nat) (envs : list ReactEnv) (w : World) : Outcome World :=
  let! w := drain fuel w in
  if exit_test w then Done w
  else
    match envs with
    | [] => OutOfFuel
    | env :: envs' =>
        let! rw := react None env w in
        drive fuel envs' rw.2
    end.

(** [block(task)]: the value returned and the state left. *)
Definition block (task : nat) (fuel : nat) (envs : list ReactEnv) (w : World)
  : Outcome (T * World) :=
  let w := with_returnValue None w in
  let handle : coroutine_handle := Some task in
  let! w := resume handle w in
  let! w := drive fuel envs w in
  match returnValue w with
  | Some v => Done (v, w)
  | None => Undefined BadOptionalAccess
  end.

End Run.
End Inline.

Arguments World : clear implicits.
Arguments Call : clear implicits.
Arguments Coroutines : clear implicits.

Definition World_new (T : Type) : World T :=
  {| this := InlineExecutor_new; returnValue := None; resumed := [];
     GetReactor := Reactor_new |}.

(** ** [BlockingThreadPool]

    What [execute] and [growPool] do happens under [mQueueMt], which the
    threads that [growPool] starts must take before their first step; the
    assertion of [growPool] that the mutex is held, the condition variable
    and the worker's [loop], which runs beside other threads, are left
    out. *)
Module Blocking.

(** [started] counts the [std::thread]s created, for stating properties. *)
Record BlockingThreadPool : Type := {
  mQueue : list coroutine_handle;
  mIdleCount : Z;
  mThreadCount : Z;
  mThreadLimits : Z;
  started : nat
}.

Definition BlockingThreadPool_new (threadLimit : Z) : BlockingThreadPool :=
  {| mQueue := []; mIdleCount := 0; mThreadCount := 0; mThreadLimits := threadLimit;
     started := 0 |}.

(** [mQueue.size() > mIdleCount * 5 && mThreadCount < mThreadLimits]. *)
Definition growPool_test (p : BlockingThreadPool) : bool :=
  (size_t_wrap (mIdleCount p * 5) <? Z.of_nat (length (mQueue p)))%Z
  && (mThreadCount p <? mThreadLimits p)%Z.

(** One turn of the loop of [growPool]. *)
Definition growPool_step (p : BlockingThreadPool) : BlockingThreadPool :=
  {| mQueue := mQueue p;
     mIdleCount := size_t_wrap (mIdleCount p + 1);
     mThreadCount := size_t_wrap (mThreadCount p + 1);
     mThreadLimits := mThreadLimits p;
     started := S (started p) |}.

Fixpoint growPool_loop (fuel : nat) (p : BlockingThreadPool) : BlockingThreadPool :=
  match fuel with
  | O => p
  | S fuel' => if growPool_test p then growPool_loop fuel' (growPool_step p) else p
  end.

(** [growPool]: a turn needs [mThreadCount < mThreadLimits] and adds one to
    [mThreadCount], so the loop takes at most their difference in turns. *)
Definition growPool (p : BlockingThreadPool) : BlockingThreadPool :=
  growPool_loop (Z.to_nat (mThreadLimits p - mThreadCount p)) p.

(** [BlockingThreadPool::execute]. *)
Definition execute (handle : coroutine_handle) (p : BlockingThreadPool) : BlockingThreadPool :=
  growPool {| mQueue := mQueue p ++ [handle]; mIdleCount := mIdleCount p;
              mThreadCount := mThreadCount p; mThreadLimits := mThreadLimits p;
              started := started p |}.

End Blocking.

End async.

Import io async.

(** ** The specification's wording, for comparison with the code *)

(** Step 2 of the specification's [react]: the next timer is the least
    pending expiry minus now, clamped at 0, when a timer is pending. *)
Definition spec_next_timer (now : TimePoint) (pending : list TimerKey) : option duration :=
  match min_element pending with
  | Some it => Some (Z.max 0 (it.1 - now))
  | None => None
  end.

(** Step 3: the effective wait is the least of the caller's timeout and the
    next timer, whichever are present; indefinite when both are absent; 0
    when the ready list is not empty. *)
Definition spec_effective_wait (timeout : option duration) (clock : TimePoint)
    (timers : TimersType) : option duration :=
  let now := (clock + 1)%Z in
  let '(ready, pending) := partitionTimers now timers in
  match ready with
  | _ :: _ => Some 0%Z
  | [] =>
      match timeout, spec_next_timer now pending with
      | Some t, Some n => Some (Z.min t n)
      | Some t, None => Some t
      | None, Some n => Some n
      | None, None => None
      end
  end.

(** Step 7 as worded: for an event whose source is in the slab the write
    parker is taken when the event is writable, otherwise the read parker. *)
Definition spec_dispatchEvent (ev : Event) (acc : list coroutine_handle * Reactor)
  : list coroutine_handle * Reactor :=
  let '(handles, r) := acc in
  match mSources r !! ev_key ev with
  | Some src =>
      let st := state src in
      if writable ev then
        (handles ++ [handle (write st)],
         with_mSources (<[ev_key ev := {| fd := fd src; key := key src;
                                          state := {| read := read st;
                                                      write := {| handle := nullptr |} |} |}]>
                          (mSources r)) r)
      else
        (handles ++ [handle (read st)],
         with_mSources (<[ev_key ev := {| fd := fd src; key := key src;
                                          state := {| read := {| handle := nullptr |};
                                                      write := write st |} |}]>
                          (mSources r)) r)
  | None => (handles, r)
  end.

(** The inline executor's [execute] as worded: the handle is pushed on the
    local run queue and nothing is resumed. *)
Definition spec_execute {T : Type} (h : coroutine_handle) (w : World T) : World T :=
  with_mQueue (mQueue (this w) ++ [h]) w.

(** The handles that a run of calls hands to [spawnDetach]. *)
Definition spawned {T : Type} (calls : list (Call T)) : list coroutine_handle :=
  omap (fun c => match c with SpawnDetach task => Some (Some task) | _ => None end) calls.

(** What the loop body of the event dispatch may do to a source: take the
    parker of one direction, leaving the other direction, the descriptor
    and the key as they are. *)
Definition takes_write (src src' : Source) : Prop :=
  handle (write (state src')) = nullptr ∧ read (state src') = read (state src)
  ∧ fd src' = fd src ∧ key src' = key src.

Definition takes_read (src src' : Source) : Prop :=
  handle (read (state src')) = nullptr ∧ write (state src') = write (state src)
  ∧ fd src' = fd src ∧ key src' = key src.

(** The handles of the timers of [timers] that are due at the clock reading
    [clock], in map order, and the duration [processTimers] answers. *)
Definition due_handles (clock : TimePoint) (timers : TimersType) : list coroutine_handle :=
  map (fun k => default nullptr (timers_find k timers))
      (partitionTimers (clock + 1)%Z timers).1.

Definition next_duration (clock : TimePoint) (timers : TimersType) : option duration :=
  let now := (clock + 1)%Z in
  match (partitionTimers now timers).1 with
  | [] =>
      match min_element (partitionTimers now timers).2 with
      | Some it => Some (if (it.1 - now <? 0)%Z then 0%Z else (it.1 - now)%Z)
      | None => Some 0%Z
      end
  | _ :: _ => None
  end.

(** The wait that [react] hands to [mPoller.wait]. *)
Definition wait_argument (timeout : option duration) (clock : TimePoint) (r : Reactor)
  : option duration :=
  effectiveWait timeout (next_duration clock (processTimeOps (mTimerOps r) (mTimers r))).

(** ** Notions used in the statements *)

(** The order of the timer map, and a map in that order (hence with one
    entry per key). *)
Definition key_lt (a b : TimerKey) : Prop := key_ltb a b = true.

Definition timers_sorted (m : TimersType) : Prop := StronglySorted key_lt (m.*1).

(** The clock reading plus 1ns and the time from there to each expiry of
    the map fit a signed 64-bit count. *)
Definition time_in_range (clock : TimePoint) (timers : TimersType) : Prop :=
  int64b (clock + 1) = true
  ∧ ∀ k : TimerKey, k ∈ timers.*1 → int64b (k.1 - (clock + 1)) = true.

(** The slot of a source an event takes from. *)
Definition chosen_slot (s : Source) (ev : Event) : coroutine_handle :=
  if writable ev then handle (write (state s)) else handle (read (state s)).

(** [s'] is [s] with some of its slots emptied. *)
Definition emptied (s s' : Source) : Prop :=
  fd s' = fd s ∧ key s' = key s
  ∧ (read (state s') = read (state s) ∨ handle (read (state s')) = nullptr)
  ∧ (write (state s') = write (state s) ∨ handle (write (state s')) = nullptr).

(** Two surroundings of [react] that differ at most in the error codes of
    the waits that fail. *)
Definition same_up_to_error (env env' : ReactEnv) : Prop :=
  clock1 env = clock1 env' ∧ clock2 env = clock2 env'
  ∧ ∀ wt, match poller_wait env wt, poller_wait env' wt with
          | WaitErr _, WaitErr _ => True
          | a, b => a = b
          end.

(** The numbers of [spawnDetach] calls and of runs of its hook in a run of
    calls. *)
Definition count_spawns {T : Type} (calls : list (Call T)) : Z :=
  Z.of_nat (length (List.filter
    (fun c => match c with SpawnDetach _ => true | _ => false end) calls)).

Definition count_hooks {T : Type} (calls : list (Call T)) : Z :=
  Z.of_nat (length (List.filter
    (fun c => match c with AfterDestroySpawned => true | _ => false end) calls)).

(** The counters of a blocking pool are [size_t] values and the pool has
    not outgrown its limit. *)
Definition pool_ok (p : Blocking.BlockingThreadPool) : Prop :=
  (0 ≤ Blocking.mThreadCount p ≤ Blocking.mThreadLimits p)%Z
  ∧ (Blocking.mThreadLimits p < 2 ^ 64)%Z
  ∧ (0 ≤ Blocking.mIdleCount p < 2 ^ 64)%Z.

(** ** Concrete inputs *)

Module Examples.

(** A source with a read parker (coroutine 5) and no write parker. *)
Definition src_reader : Source :=
  {| fd := 3; key := 0;
     state := {| read := {| handle := Some 5 |}; write := {| handle := nullptr |} |} |}.

Definition reactor_reader : Reactor := with_mSources {[ 0 := src_reader ]} Reactor_new.

Definition ev_none : Event := {| ev_key := 0; readable := false; writable := false |}.
Definition ev_read : Event := {| ev_key := 0; readable := true; writable := false |}.
Definition ev_both : Event := {| ev_key := 0; readable := true; writable := true |}.
Definition ev_stale : Event := {| ev_key := 9; readable := true; writable := false |}.

(** A reactor whose timer map holds one timer, due at time 0, for coroutine 7. *)
Definition reactor_timer : Reactor := with_mTimers [((0%Z, 0), Some 7)] Reactor_new.

(** A reactor on which [insertTimer 0 (Some 7)] was just called. *)
Definition reactor_inserted : Reactor := (insertTimer 0%Z (Some 7) Reactor_new).2.

(** The poller wakes with no event (a timeout or a [notify]). *)
Definition env_wake : ReactEnv :=
  {| clock1 := 10%Z; poller_wait := fun _ => WaitOk 0 []; clock2 := 20%Z |}.

(** The poller reports one event, for a key that left the slab. *)
Definition env_stale : ReactEnv :=
  {| clock1 := 10%Z; poller_wait := fun _ => WaitOk 1 [ev_stale]; clock2 := 20%Z |}.

(** The poller reports one event, readable and writable, for source 0. *)
Definition env_both : ReactEnv :=
  {| clock1 := 10%Z; poller_wait := fun _ => WaitOk 1 [ev_both]; clock2 := 20%Z |}.

(** The wait is interrupted by a signal. *)
Definition env_eintr : ReactEnv :=
  {| clock1 := 10%Z; poller_wait := fun _ => WaitErr interrupted; clock2 := 20%Z |}.

(** The wait fails with [EBADF]. *)
Definition env_ebadf : ReactEnv :=
  {| clock1 := 10%Z; poller_wait := fun _ => WaitErr 9%Z; clock2 := 20%Z |}.

(** Coroutines that make no call when resumed. *)
Definition idle_code : Coroutines nat := fun _ _ => [].

(** Coroutine 0 sleeps until time 100 and then ends with the value 42; when
    it is first resumed it also spawns coroutine 1, which ends at once. *)
Definition sleeper_code : Coroutines nat := fun c w =>
  match c with
  | 0 => match resumed w with
         | [] => [SpawnDetach 1; InsertTimer 100%Z (Some 0)]
         | _ :: _ => [AfterDestroyBlock 42]
         end
  | _ => [AfterDestroySpawned]
  end.

(** The first wait of the sleeper's [block] times out at time 100. *)
Definition env_sleep : ReactEnv :=
  {| clock1 := 0%Z; poller_wait := fun _ => WaitOk 0 []; clock2 := 100%Z |}.

End Examples.

Module MoreExamples.

(** A reactor whose timer map holds two timers: coroutine 7 due at time 0
    and coroutine 8 due at time 50. *)
Definition reactor_two_timers : Reactor :=
  with_mTimers [((0%Z, 0), Some 7); ((50%Z, 1), Some 8)]
    (with_ID_GENERATOR 2 Reactor_new).

(** An inline executor with coroutines 1 and 2 queued. *)
Definition world_queued : World nat := with_mQueue [Some 1; Some 2] (World_new nat).

(** A blocking pool of at most 3 threads, one of them idle, with a backlog
    of 11 handles. *)
Definition pool_backlog : Blocking.BlockingThreadPool :=
  {| Blocking.mQueue := replicate 11 (Some 4); Blocking.mIdleCount := 1;
     Blocking.mThreadCount := 1; Blocking.mThreadLimits := 3; Blocking.started := 1 |}.

(** A reactor whose one timer expires at the last instant of the clock. *)
Definition reactor_far_timer : Reactor :=
  with_mTimers [((2 ^ 63 - 1)%Z, 0, Some 7)] (Reactor_at 1).

End MoreExamples.

(** * Properties *)

(** ** Parking slots *)

Section Parking.
Implicit Types (h : coroutine_handle) (s : Source) (d : Direction).

Lemma isEmpty_true d : isEmpty d = true ↔ handle d = nullptr.
Proof. unfold isEmpty, nullptr. destruct (handle d); split; congruence. Qed.

Lemma isEmpty_false d : isEmpty d = false ↔ handle d ≠ nullptr.
Proof. unfold isEmpty, nullptr. destruct (handle d); split; congruence. Qed.

Lemma takeHandle_empties d : isEmpty (takeHandle d).2 = true.
Proof. reflexivity. Qed.

Lemma takeHandle_null_iff_empty d : (takeHandle d).1 = nullptr ↔ isEmpty d = true.
Proof. rewrite isEmpty_true. reflexivity. Qed.

Lemma setReadable_keeps_write h s : write (state (setReadable h s).2) = write (state s).
Proof. unfold setReadable. destruct (isEmpty _); reflexivity. Qed.

Lemma setWritable_keeps_read h s : read (state (setWritable h s).2) = read (state s).
Proof. unfold setWritable. destruct (isEmpty _); reflexivity. Qed.

(** C4: each direction of a source has one slot; [setReadable] on an
    occupied read slot returns false and leaves the source, hence the
    installed handle, unchanged; on an empty read slot it installs the
    handle, touches nothing else and returns true; [setWritable] does the
    same for the write slot. *)
Theorem parker_at_most_one h s :
  (handle (read (state s)) ≠ nullptr → setReadable h s = (false, s))
  ∧ (handle (read (state s)) = nullptr →
       (setReadable h s).1 = true
       ∧ handle (read (state (setReadable h s).2)) = h
       ∧ write (state (setReadable h s).2) = write (state s)
       ∧ fd (setReadable h s).2 = fd s ∧ key (setReadable h s).2 = key s)
  ∧ (handle (write (state s)) ≠ nullptr → setWritable h s = (false, s))
  ∧ (handle (write (state s)) = nullptr →
       (setWritable h s).1 = true
       ∧ handle (write (state (setWritable h s).2)) = h
       ∧ read (state (setWritable h s).2) = read (state s)
       ∧ fd (setWritable h s).2 = fd s ∧ key (setWritable h s).2 = key s).
Proof.
  split; [|split; [|split]]; intros Hslot.
  - apply isEmpty_false in Hslot. unfold setReadable. by rewrite Hslot.
  - apply isEmpty_true in Hslot. unfold setReadable. by rewrite Hslot.
  - apply isEmpty_false in Hslot. unfold setWritable. by rewrite Hslot.
  - apply isEmpty_true in Hslot. unfold setWritable. by rewrite Hslot.
Qed.

Lemma parker_at_most_one_witness :
  setReadable (Some 8) Examples.src_reader = (false, Examples.src_reader)
  ∧ handle (write (state (setWritable (Some 8) Examples.src_reader).2)) = Some 8.
Proof.
  destruct (parker_at_most_one (Some 8) Examples.src_reader)
    as (Hbusy & _ & _ & Hfree).
  split.
  - apply Hbusy. discriminate.
  - apply Hfree. reflexivity.
Defined.

End Parking.

(** ** Timers *)

Section Timers.
Implicit Types (k : TimerKey) (m timers : TimersType) (hs : list coroutine_handle)
  (r : Reactor) (clock : TimePoint).

Lemma key_eqb_refl k : key_eqb k k = true.
Proof. unfold key_eqb. rewrite Z.eqb_refl, Nat.eqb_refl. reflexivity. Qed.

Lemma key_eqb_eq k k' : key_eqb k k' = true ↔ k = k'.
Proof.
  unfold key_eqb. destruct k as [w i], k' as [w' i']; simpl.
  rewrite andb_true_iff, Z.eqb_eq, Nat.eqb_eq. split.
  - intros [-> ->]. reflexivity.
  - intros [= -> ->]. done.
Qed.

(** Every key the scan calls ready is a key of the map. *)
Lemma partition_ready_found now m :
  Forall (fun k => is_Some (timers_find k m)) (partitionTimers now m).1.
Proof.
  induction m as [|[k0 h0] m IH]; simpl; [constructor|].
  destruct (partitionTimers now m) as [ready pending] eqn:Hp; simpl in IH.
  assert (Forall (fun k => is_Some (timers_find k ((k0, h0) :: m))) ready) as Hweak.
  { eapply Forall_impl; [exact IH|]. intros k Hk; simpl.
    destruct (key_eqb k k0); [eauto|exact Hk]. }
  destruct (k0.1 <=? now)%Z; simpl; [|exact Hweak].
  constructor; [|exact Hweak].
  simpl. rewrite key_eqb_refl. eauto.
Qed.

(** Looking up keys that are in the map collects their handles and leaves
    the map as it is: nothing is erased. *)
Lemma collectReady_found ready m hs :
  Forall (fun k => is_Some (timers_find k m)) ready →
  collectReady ready m hs
  = (hs ++ map (fun k => default nullptr (timers_find k m)) ready, m).
Proof.
  revert hs. induction ready as [|k ready IH]; intros hs Hall; simpl.
  - by rewrite app_nil_r.
  - inversion Hall as [|? ? [h Hk] Hrest]; subst.
    unfold timers_at. rewrite Hk; simpl.
    rewrite IH by assumption. by rewrite <- app_assoc.
Qed.

(** [processTimers] in closed form: the operations queued are applied, the
    handles of the due timers are appended, and the map keeps every entry,
    the due ones included. *)
Lemma processTimers_closed clock hs r :
  let timers := processTimeOps (mTimerOps r) (mTimers r) in
  processTimers clock hs r
  = (next_duration clock timers, hs ++ due_handles clock timers,
     with_mTimerOps [] (with_mTimers timers r)).
Proof.
  intros timers. unfold processTimers, next_duration, due_handles. simpl.
  fold timers.
  pose proof (partition_ready_found (clock + 1)%Z timers) as Hfound.
  destruct (partitionTimers (clock + 1)%Z timers) as [ready pending]; simpl in *.
  rewrite (collectReady_found _ _ _ Hfound). reflexivity.
Qed.

Lemma processTimers_keeps_timers clock hs r :
  mTimerOps r = [] → mTimers (processTimers clock hs r).2 = mTimers r.
Proof. intros Hq. rewrite processTimers_closed, Hq. reflexivity. Qed.

(** A timer that is due stays due at every later clock reading. *)
Lemma due_stays_due now now' m k :
  (now ≤ now')%Z → k ∈ (partitionTimers now m).1 → k ∈ (partitionTimers now' m).1.
Proof.
  intros Hle. induction m as [|[k0 h0] m IH]; simpl; [done|].
  destruct (partitionTimers now m) as [ready pending].
  destruct (partitionTimers now' m) as [ready' pending']. simpl in IH.
  destruct (Z.leb_spec k0.1 now), (Z.leb_spec k0.1 now'); simpl;
    rewrite ?elem_of_cons; try lia; intuition.
Qed.

(** Once a timer was collected, every later [processTimers] collects a
    handle for it again, as long as no [removeTimer] is queued. *)
Lemma processTimers_collects_again clock clock' hs hs' r k :
  mTimerOps r = [] → (clock ≤ clock')%Z →
  k ∈ (partitionTimers (clock + 1)%Z (mTimers r)).1 →
  default nullptr (timers_find k (mTimers r)) ∈ (processTimers clock hs r).1.2
  ∧ default nullptr (timers_find k (mTimers r))
      ∈ (processTimers clock' hs' (processTimers clock hs r).2).1.2.
Proof.
  intros Hq Hle Hk.
  assert (∀ c, (clock ≤ c)%Z →
            default nullptr (timers_find k (mTimers r)) ∈ due_handles c (mTimers r)) as Hdue.
  { intros c Hc. unfold due_handles.
    apply (list_elem_of_fmap_2 (fun k => default nullptr (timers_find k (mTimers r)))).
    eapply due_stays_due; [|exact Hk]. lia. }
  rewrite !processTimers_closed. simpl. rewrite Hq. simpl.
  split; apply elem_of_app; right; apply Hdue; lia.
Qed.

End Timers.

(** ** The wait of [react] *)

Section Wait.
Implicit Types (timeout : option duration) (env : ReactEnv) (r : Reactor) (rd : Reacted).

Lemma react_collect_waited timeout env r rd :
  react_collect timeout env r = Done rd →
  waited rd = wait_argument timeout (clock1 env) r.
Proof.
  unfold react_collect, wait_argument. rewrite processTimers_closed. simpl.
  set (wt := effectiveWait _ _).
  destruct (poller_wait env wt) as [count events|e].
  - destruct (count =? 0)%nat.
    + destruct wt as [w|]; [|discriminate].
      destruct (negb (w =? 0)%Z).
      * destruct (processTimers _ _ _) as [[? ?] ?]. by intros [= <-].
      * by intros [= <-].
    + destruct (dispatchEvents _ _ _). by intros [= <-].
  - destruct (e =? interrupted)%Z; by intros [= <-].
Qed.

(** With a timer due, the wait is the caller's timeout as it is: indefinite
    when the caller gave none. *)
Lemma wait_with_due_timer timeout clock r :
  (partitionTimers (clock + 1)%Z (processTimeOps (mTimerOps r) (mTimers r))).1 ≠ [] →
  wait_argument timeout clock r = timeout.
Proof.
  intros Hdue. unfold wait_argument, next_duration.
  destruct (partitionTimers _ _).1; [done|]. by destruct timeout.
Qed.

(** With no timer at all, the wait is 0, or the caller's timeout when that
    is negative. *)
Lemma wait_without_timers timeout clock r :
  processTimeOps (mTimerOps r) (mTimers r) = [] →
  wait_argument timeout clock r = Some (from_option (fun t => Z.min t 0) 0%Z timeout).
Proof.
  intros Hnone. unfold wait_argument, next_duration. rewrite Hnone. simpl.
  by destruct timeout.
Qed.

(** With timers pending and none due, the wait is the one the
    specification words. *)
Lemma wait_pending_only timeout clock r :
  let timers := processTimeOps (mTimerOps r) (mTimers r) in
  (partitionTimers (clock + 1)%Z timers).1 = [] →
  (partitionTimers (clock + 1)%Z timers).2 ≠ [] →
  wait_argument timeout clock r = spec_effective_wait timeout clock timers.
Proof.
  intros timers Hready Hpending.
  unfold wait_argument, spec_effective_wait, next_duration, spec_next_timer.
  fold timers. destruct (partitionTimers (clock + 1)%Z timers) as [ready pending].
  simpl in *. subst ready.
  destruct pending as [|a pending]; [done|].
  destruct (min_element (a :: pending)) as [it|] eqn:Hmin.
  - replace (Z.max 0 (it.1 - (clock + 1)))
      with (if (it.1 - (clock + 1) <? 0)%Z then 0%Z else (it.1 - (clock + 1))%Z)
      by (destruct (Z.ltb_spec (it.1 - (clock + 1)) 0); lia).
    by destruct timeout.
  - simpl in Hmin. destruct (min_element pending) as [b|]; [|done].
    by destruct (b.1 <? a.1)%Z.
Qed.

(** [react] has one undefined step: the dereference of [waitTimeout] after
    a wait without events, reached exactly when the wait was indefinite. *)
Lemma react_collect_undefined timeout env r f :
  react_collect timeout env r = Undefined f →
  f = EmptyOptionalDeref
  ∧ wait_argument timeout (clock1 env) r = None
  ∧ ∃ events, poller_wait env None = WaitOk 0 events.
Proof.
  unfold react_collect, wait_argument. rewrite processTimers_closed. simpl.
  set (wt := effectiveWait _ _).
  destruct (poller_wait env wt) as [count events|e] eqn:Hwait.
  - destruct count as [|count]; simpl.
    + destruct wt as [w|].
      * destruct (negb (w =? 0)%Z); [|discriminate].
        destruct (processTimers _ _ _) as [[? ?] ?]. discriminate.
      * intros [= <-]. eauto.
    + destruct (dispatchEvents _ _ _). discriminate.
  - destruct (e =? interrupted)%Z; discriminate.
Qed.

Lemma react_collect_indefinite_wake env r events :
  wait_argument None (clock1 env) r = None →
  poller_wait env None = WaitOk 0 events →
  react_collect None env r = Undefined EmptyOptionalDeref.
Proof.
  unfold react_collect, wait_argument. rewrite processTimers_closed. simpl.
  intros -> ->. reflexivity.
Qed.

(** C1, evaluated on the code: with one timer due (expiry 0 at clock 10) and
    no caller timeout, [react] collects the timer's handle and hands the
    poller an indefinite wait, and with the caller timeout 5 it hands the
    poller 5, where the specification words 0 in both cases; with no timer
    at all and the caller timeout 5 it hands the poller 0, where the
    specification words 5. *)
Theorem react_wait_with_due_timer_not_zero :
  (∃ rd, react_collect None Examples.env_stale Examples.reactor_timer = Done rd
         ∧ handles rd = [Some 7] ∧ waited rd = None)
  ∧ spec_effective_wait None 10%Z (mTimers Examples.reactor_timer) = Some 0%Z
  ∧ (∃ rd, react_collect (Some 5%Z) Examples.env_stale Examples.reactor_timer = Done rd
           ∧ handles rd = [Some 7] ∧ waited rd = Some 5%Z)
  ∧ spec_effective_wait (Some 5%Z) 10%Z (mTimers Examples.reactor_timer) = Some 0%Z
  ∧ (∃ rd, react_collect (Some 5%Z) Examples.env_stale Reactor_new = Done rd
           ∧ handles rd = [] ∧ waited rd = Some 0%Z)
  ∧ spec_effective_wait (Some 5%Z) 10%Z (mTimers Reactor_new) = Some 5%Z.
Proof.
  repeat apply conj; try reflexivity; eexists; repeat apply conj; reflexivity.
Qed.

(** C9, evaluated on the code: called without a timeout (as [block] calls
    it) on a reactor with a timer due, [react] leaves [waitTimeout] empty;
    when the poller then wakes with no event, [*waitTimeout] is evaluated on
    the empty optional. *)
Theorem react_dereferences_empty_waitTimeout :
  wait_argument None (clock1 Examples.env_wake) Examples.reactor_timer = None
  ∧ react_collect None Examples.env_wake Examples.reactor_timer
    = Undefined EmptyOptionalDeref
  ∧ react (H := InlineExecutor_Executor1 Examples.idle_code) None Examples.env_wake
      (with_GetReactor Examples.reactor_timer (World_new nat))
    = Undefined EmptyOptionalDeref.
Proof. repeat apply conj; reflexivity. Qed.

End Wait.

(** ** Timers across calls of [react] *)

(** C2, evaluated on the code: a timer inserted by [insertTimer] and never
    removed is collected by a first [react] after its expiry, stays in the
    timer map, and is collected again by the next [react]; within one
    [react] whose wait ends without events it is collected twice; an inline
    executor driven by the two calls resumes coroutine 7 twice. *)
Theorem expired_timer_collected_again :
  (∃ rd1 rd2,
      react_collect None Examples.env_stale Examples.reactor_inserted = Done rd1
      ∧ handles rd1 = [Some 7]
      ∧ mTimers (after rd1) = [((0%Z, 0), Some 7)]
      ∧ react_collect None Examples.env_stale (after rd1) = Done rd2
      ∧ handles rd2 = [Some 7])
  ∧ (∃ rd, react_collect (Some 5%Z) Examples.env_wake Examples.reactor_inserted = Done rd
           ∧ handles rd = [Some 7; Some 7])
  ∧ (let! rw1 := react (H := InlineExecutor_Executor1 Examples.idle_code) None
                   Examples.env_stale
                   (with_GetReactor Examples.reactor_inserted (World_new nat)) in
      let! rw2 := react (H := InlineExecutor_Executor1 Examples.idle_code) None
                   Examples.env_stale rw1.2 in
      Done (resumed rw2.2)) = Done [7; 7].
Proof.
  repeat apply conj.
  - do 2 eexists. repeat apply conj; reflexivity.
  - eexists. split; reflexivity.
  - vm_compute. reflexivity.
Qed.

(** ** Failures of the wait *)

Section WaitFailure.
Context {W : Type} {E : Executor1 W}.

(** When [mPoller.wait] fails, [react] dispatches no event, still hands the
    due timers' handles to the executor, and leaves [res] in the state
    [emplace] puts it in, whatever the error code. *)
Lemma react_wait_failure_result (timeout : option duration) (env : ReactEnv) (w : W) (e : Z) :
  poller_wait env (wait_argument timeout (clock1 env) (io.reactor w)) = WaitErr e →
  ∃ rd, react_collect timeout env (io.reactor w) = Done rd
        ∧ res rd = emplace (if (e =? interrupted)%Z then None else Some e)
        ∧ handles rd = due_handles (clock1 env)
                         (processTimeOps (mTimerOps (io.reactor w)) (mTimers (io.reactor w)))
        ∧ mSources (after rd) = mSources (io.reactor w)
        ∧ (∀ w', io.execute (handles rd) (io.with_reactor (after rd) w) = Done w' →
                 react timeout env w = Done (res rd, w')).
Proof.
  intros Hfail. unfold react, react_collect. unfold wait_argument in Hfail.
  rewrite processTimers_closed. simpl. rewrite Hfail.
  destruct (e =? interrupted)%Z.
  - eexists. split; [reflexivity|]. simpl. repeat apply conj; try done.
    intros w' ->. reflexivity.
  - eexists. split; [reflexivity|]. simpl. repeat apply conj; try done.
    intros w' ->. reflexivity.
Qed.

End WaitFailure.


(** ** Event dispatch *)

Section Dispatch.
Implicit Types (ev : Event) (evs : list Event) (hs : list coroutine_handle) (r : Reactor).

(** C3, amended: an event whose key is not in the slab changes nothing, and
    so does an event with neither flag set; for an event whose key is in
    the slab and whose slot, the write slot when the event is writable,
    otherwise the read slot when it is readable, holds a parker, exactly
    that parker is collected and that slot emptied, the other slot and the
    other sources being left as they are.  The events of a buffer are
    dispatched one after the other, in buffer order. *)
Theorem event_dispatch_takes_occupied_parker ev evs hs r :
  (mSources r !! ev_key ev = None → dispatchEvent ev (hs, r) = (hs, r))
  ∧ (writable ev = false → readable ev = false → dispatchEvent ev (hs, r) = (hs, r))
  ∧ (∀ src (c : nat),
       mSources r !! ev_key ev = Some src →
       writable ev || readable ev = true →
       chosen_slot src ev = Some c →
       (dispatchEvent ev (hs, r)).1 = hs ++ [Some c]
       ∧ (∃ src', mSources (dispatchEvent ev (hs, r)).2 !! ev_key ev = Some src'
                  ∧ if writable ev then takes_write src src' else takes_read src src')
       ∧ ∀ k, k ≠ ev_key ev →
              mSources (dispatchEvent ev (hs, r)).2 !! k = mSources r !! k)
  ∧ dispatchEvents (ev :: evs) hs r
    = dispatchEvents evs (dispatchEvent ev (hs, r)).1 (dispatchEvent ev (hs, r)).2.
Proof.
  split; [|split; [|split]].
  - intros Hnone. unfold dispatchEvent. by rewrite Hnone.
  - intros Hw Hr. unfold dispatchEvent. rewrite Hw, Hr.
    by destruct (mSources r !! ev_key ev).
  - intros src c Hsrc Hflag Hslot. unfold dispatchEvent, chosen_slot in *. rewrite Hsrc.
    destruct (writable ev); simpl in *.
    + rewrite Hslot. split; [done|]. split.
      * eexists. rewrite lookup_insert_eq. split; [done|]. by unfold takes_write.
      * intros k Hk. by rewrite lookup_insert_ne.
    + rewrite Hflag. simpl. rewrite Hslot. split; [done|]. split.
      * eexists. rewrite lookup_insert_eq. split; [done|]. by unfold takes_read.
      * intros k Hk. by rewrite lookup_insert_ne.
  - unfold dispatchEvents. cbn [fold_left]. by destruct (dispatchEvent ev (hs, r)).
Qed.

Lemma event_dispatch_takes_occupied_parker_witness :
  (dispatchEvent Examples.ev_read ([], Examples.reactor_reader)).1 = [Some 5]
  ∧ mSources (dispatchEvent Examples.ev_read ([], Examples.reactor_reader)).2 !! 1
    = mSources Examples.reactor_reader !! 1.
Proof.
  destruct (event_dispatch_takes_occupied_parker Examples.ev_read []
              [] Examples.reactor_reader) as (_ & _ & Htake & _).
  destruct (Htake Examples.src_reader 5) as (Hcollected & _ & Hothers).
  - reflexivity.
  - reflexivity.
  - reflexivity.
  - split; [exact Hcollected|]. apply Hothers. discriminate.
Defined.

(** C3 as worded fails on an event with neither flag set: the source has a
    read parker, the wording collects it, the code collects nothing. *)
Lemma flagless_event_takes_nothing :
  dispatchEvents [Examples.ev_none] [] Examples.reactor_reader
  = ([], Examples.reactor_reader)
  ∧ (spec_dispatchEvent Examples.ev_none ([], Examples.reactor_reader)).1 = [Some 5]
  ∧ dispatchEvent Examples.ev_none ([], Examples.reactor_reader)
    ≠ spec_dispatchEvent Examples.ev_none ([], Examples.reactor_reader).
Proof.
  assert (dispatchEvent Examples.ev_none ([], Examples.reactor_reader)
          = ([], Examples.reactor_reader)) as Hcode by (vm_compute; reflexivity).
  assert ((spec_dispatchEvent Examples.ev_none ([], Examples.reactor_reader)).1
          = [Some 5]) as Hspec by (vm_compute; reflexivity).
  repeat apply conj.
  - exact Hcode.
  - exact Hspec.
  - intros Heq. rewrite <- Heq, Hcode in Hspec. discriminate.
Qed.

(** A writable event for a source whose write slot is empty collects the
    null handle, whatever the read slot holds. *)
Lemma dispatchEvent_empty_write_slot ev hs r src :
  mSources r !! ev_key ev = Some src → writable ev = true →
  isEmpty (write (state src)) = true →
  (dispatchEvent ev (hs, r)).1 = hs ++ [nullptr].
Proof.
  intros Hsrc Hw Hempty%isEmpty_true. unfold dispatchEvent.
  rewrite Hsrc, Hw. simpl. by rewrite Hempty.
Qed.

(** C8, evaluated on the code: source 0 has a read parker and no write
    parker; for an event that is readable and writable, [react] takes the
    handle of the empty write slot, so the one handle it collects is null and
    the read parker stays parked; an inline executor handed that span
    resumes the null handle. *)
Theorem event_dispatch_collects_null_handle :
  (∃ rd, react_collect None Examples.env_both Examples.reactor_reader = Done rd
         ∧ handles rd = [nullptr]
         ∧ mSources (after rd) !! 0 = Some Examples.src_reader)
  ∧ react (H := InlineExecutor_Executor1 Examples.idle_code) None Examples.env_both
      (with_GetReactor Examples.reactor_reader (World_new nat))
    = Undefined NullHandleResume.
Proof.
  split.
  - eexists. repeat apply conj; vm_compute; reflexivity.
  - vm_compute. reflexivity.
Qed.

End Dispatch.

(** ** Registering a descriptor *)

Section Slab.
Implicit Types (m : gmap nat Source) (v : Source).

Lemma first_vacant_vacant m fuel k :
  (∀ j, j < k → is_Some (m !! j)) → fuel + k = size m →
  m !! first_vacant m fuel k = None.
Proof.
  revert k. induction fuel as [|fuel IH]; intros k Hbelow Hsize; simpl.
  - destruct (m !! k) as [v|] eqn:Hk; [|done]. exfalso.
    assert (set_seq 0 (S k) ⊆ dom m) as Hsub.
    { intros j [_ Hj]%elem_of_set_seq. apply elem_of_dom.
      destruct (decide (j = k)) as [->|]; [eauto|apply Hbelow; lia]. }
    apply subseteq_size in Hsub. rewrite size_set_seq, size_dom in Hsub. lia.
  - destruct (m !! k) as [v|] eqn:Hk; [|done].
    apply IH; [|lia]. intros j Hj.
    destruct (decide (j = k)) as [->|]; [eauto|apply Hbelow; lia].
Qed.

(** The key previewed is not in use, so [insert] overwrites nothing. *)
Lemma vacantEntry_key_vacant m : m !! vacantEntry_key m = None.
Proof. apply first_vacant_vacant; [lia|]. unfold size. lia. Qed.

(** A removal right after an insertion gives back the value and the slab
    as it was: the rollback written in [insertIo] would restore the slab. *)
Lemma Slab_insert_tryRemove v m :
  Slab_tryRemove (Slab_insert v m).1 (Slab_insert v m).2 = (Some v, m).
Proof.
  unfold Slab_tryRemove, Slab_insert. simpl.
  rewrite lookup_insert_eq, delete_insert_eq. f_equal.
  apply delete_id, vacantEntry_key_vacant.
Qed.

End Slab.

(** C10, evaluated on the code: [insertIo] moves [source] into the slab and
    then evaluates [source->key] on the pointer it moved from, for every
    descriptor, reactor and poller answer; it never reaches its [return]s. *)
Theorem insertIo_uses_moved_pointer
    (poller_add : Z → Event → StdResult unit) (fd : Z) (r : Reactor) :
  insertIo poller_add fd r = Undefined NullPointerDeref.
Proof.
  unfold insertIo, Slab_insert. cbn.
  rewrite Nat.eqb_refl. reflexivity.
Qed.

(** ** The inline executor *)

Section InlineProperties.
Context {T : Type}.
Implicit Types (w : World T) (calls : list (Call T)) (code : Coroutines T).

Lemma run_call_resumed w (c : Call T) : resumed (run_call w c) = resumed w.
Proof. destruct c; reflexivity. Qed.

Lemma run_call_mQueue w (c : Call T) :
  mQueue (this (run_call w c)) = mQueue (this w) ++ spawned [c].
Proof. destruct c; simpl; by rewrite ?app_nil_r. Qed.

Lemma spawned_cons (c : Call T) calls : spawned (c :: calls) = spawned [c] ++ spawned calls.
Proof. unfold spawned. simpl. by destruct c. Qed.

(** A run of calls leaves the resume history as it is and appends to the
    queue the tasks it spawns. *)
Lemma run_calls_effect calls w :
  resumed (fold_left run_call calls w) = resumed w
  ∧ mQueue (this (fold_left run_call calls w)) = mQueue (this w) ++ spawned calls.
Proof.
  revert w. induction calls as [|c calls IH]; intros w; cbn [fold_left].
  - split; [done|]. by rewrite app_nil_r.
  - destruct (IH (run_call w c)) as [Hres Hq]. split.
    + by rewrite Hres, run_call_resumed.
    + by rewrite Hq, run_call_mQueue, (spawned_cons c calls), app_assoc.
Qed.

(** C5, as the code has it: [execute] resumes the handle it receives at
    once (a null handle is resumed all the same); afterwards the handle is
    the last entry of the resume history, and the run queue has gained only
    the tasks the resumed coroutine spawned, not the handle. *)
Theorem inline_execute_resumes_at_once code (c : nat) w :
  execute code nullptr w = Undefined NullHandleResume
  ∧ ∃ w', execute code (Some c) w = Done w'
          ∧ resumed w' = resumed w ++ [c]
          ∧ mQueue (this w') = mQueue (this w) ++ spawned (code c w).
Proof.
  split; [reflexivity|].
  unfold execute, resume. eexists. split; [reflexivity|].
  destruct (run_calls_effect (code c w) (with_resumed (resumed w ++ [c]) w)) as [Hres Hq].
  split; [exact Hres|exact Hq].
Qed.

(** The drive loop is left through its exit test only. *)
Lemma drive_exit code fuel envs w w' :
  drive code fuel envs w = Done w' → exit_test w' = true.
Proof.
  revert w. induction envs as [|env envs IH]; intros w; cbn [drive].
  - destruct (drain code fuel w) as [w1| |]; simpl; try discriminate.
    destruct (exit_test w1) eqn:Hexit; [|discriminate].
    by intros [= <-].
  - destruct (drain code fuel w) as [w1| |]; simpl; try discriminate.
    destruct (exit_test w1) eqn:Hexit; [by intros [= <-]|].
    destruct (react None env w1) as [rw| |]; simpl; try discriminate.
    apply IH.
Qed.

Lemma exit_test_true w :
  exit_test w = true →
  mSpawnCount (this w) = 0%Z ∧ is_Some (returnValue w) ∧ mQueue (this w) = [].
Proof.
  unfold exit_test. rewrite !andb_true_iff, Z.eqb_eq.
  intros [[Hcount Hvalue] Hqueue]. repeat apply conj.
  - exact Hcount.
  - destruct (returnValue w); [eauto|discriminate].
  - destruct (mQueue (this w)); [done|discriminate].
Qed.

(** C7: when [block] returns, the spawn count is 0, the result slot holds
    the value returned and the run queue is empty. *)
Theorem block_returns_only_when_idle code (task fuel : nat) (envs : list ReactEnv)
    w (v : T) w' :
  block code task fuel envs w = Done (v, w') →
  mSpawnCount (this w') = 0%Z ∧ returnValue w' = Some v ∧ mQueue (this w') = [].
Proof.
  unfold block.
  destruct (resume code (Some task) (with_returnValue None w)) as [w0| |];
    simpl; try discriminate.
  destruct (drive code fuel envs w0) as [w1| |] eqn:Hdrive; simpl; try discriminate.
  destruct (returnValue w1) as [v1|] eqn:Hvalue; [|discriminate].
  intros [= <- <-].
  apply drive_exit, exit_test_true in Hdrive as (Hcount & _ & Hqueue).
  done.
Qed.

End InlineProperties.

Lemma block_returns_only_when_idle_witness :
  ∃ w', block Examples.sleeper_code 0 4 [Examples.env_sleep] (World_new nat) = Done (42, w')
        ∧ mSpawnCount (this w') = 0%Z ∧ returnValue w' = Some 42
        ∧ mQueue (this w') = [] ∧ resumed w' = [0; 1; 0].
Proof.
  eexists. split; [vm_compute; reflexivity|].
  split; [|split; [|split]].
  - eapply (block_returns_only_when_idle Examples.sleeper_code 0 4 [Examples.env_sleep]
              (World_new nat) 42). vm_compute. reflexivity.
  - reflexivity.
  - reflexivity.
  - reflexivity.
Defined.

(** C5 as worded fails: executing the handle of coroutine 1 on a fresh
    executor resumes it at once and leaves the run queue empty, where the
    wording queues the handle and resumes nothing. *)
Lemma inline_execute_does_not_queue :
  execute Examples.idle_code (Some 1) (World_new nat)
  = Done (with_resumed [1] (World_new nat))
  ∧ mQueue (this (spec_execute (Some 1) (World_new nat))) = [Some 1]
  ∧ resumed (spec_execute (Some 1) (World_new nat)) = []
  ∧ execute Examples.idle_code (Some 1) (World_new nat)
    ≠ Done (spec_execute (Some 1) (World_new nat)).
Proof.
  repeat apply conj; try reflexivity.
  intros Heq. vm_compute in Heq. discriminate.
Qed.

(** * Further properties of the code *)

(** ** The timer map *)

Section TimerMap.
Implicit Types (k : TimerKey) (h : coroutine_handle) (m : TimersType).

Lemma key_ltb_irrefl k : key_ltb k k = false.
Proof.
  unfold key_ltb. rewrite Z.ltb_irrefl, Nat.ltb_irrefl, andb_false_r. reflexivity.
Qed.

Lemma key_lt_trans k1 k2 k3 : key_lt k1 k2 → key_lt k2 k3 → key_lt k1 k3.
Proof.
  unfold key_lt, key_ltb. destruct k1 as [w1 i1], k2 as [w2 i2], k3 as [w3 i3]; simpl.
  rewrite !orb_true_iff, !andb_true_iff, !Z.ltb_lt, !Z.eqb_eq, !Nat.ltb_lt. lia.
Qed.

Lemma key_total k k' : key_eqb k k' = false → key_ltb k k' = false → key_lt k' k.
Proof.
  unfold key_lt, key_ltb, key_eqb. destruct k as [w i], k' as [w' i']; simpl.
  rewrite !orb_false_iff, !andb_false_iff, !orb_true_iff, !andb_true_iff,
    !Z.ltb_lt, !Z.eqb_eq, !Nat.ltb_lt, !Z.ltb_ge, !Z.eqb_neq, !Nat.ltb_ge, !Nat.eqb_neq.
  lia.
Qed.

Lemma key_eqb_neq k k' : key_eqb k k' = false ↔ k ≠ k'.
Proof.
  rewrite <- key_eqb_eq. destruct (key_eqb k k'); split; congruence.
Qed.

Lemma timers_find_below k m : Forall (key_lt k) (m.*1) → timers_find k m = None.
Proof.
  induction m as [|[k' h'] m IH]; simpl; [done|].
  intros [Hk Hm]%Forall_cons. destruct (key_eqb k k') eqn:Heq; [|by apply IH].
  apply key_eqb_eq in Heq as <-. unfold key_lt in Hk. by rewrite key_ltb_irrefl in Hk.
Qed.

Lemma timers_insert_keys_Forall (P : TimerKey → Prop) k h m :
  P k → Forall P (m.*1) → Forall P ((timers_insert k h m).*1).
Proof.
  intros Hk. induction m as [|[k' h'] m IH]; simpl; intros Hm.
  - by constructor.
  - destruct (key_eqb k k'); [done|]. destruct (key_ltb k k'); simpl.
    + by constructor.
    + apply Forall_cons in Hm as [Hk' Hm]. constructor; [done|by apply IH].
Qed.

Lemma timers_erase_keys_Forall (P : TimerKey → Prop) k m :
  Forall P (m.*1) → Forall P ((timers_erase k m).*1).
Proof.
  induction m as [|[k' h'] m IH]; simpl; [done|].
  intros [Hk' Hm]%Forall_cons. destruct (key_eqb k k'); [done|].
  simpl. constructor; [done|by apply IH].
Qed.

Lemma timers_insert_sorted k h m : timers_sorted m → timers_sorted (timers_insert k h m).
Proof.
  unfold timers_sorted. induction m as [|[k' h'] m IH]; simpl; intros Hs.
  - repeat constructor.
  - apply StronglySorted_inv in Hs as [Hm Hk'].
    destruct (key_eqb k k') eqn:Heq; [by constructor|].
    destruct (key_ltb k k') eqn:Hlt; simpl.
    + constructor; [by constructor|]. constructor; [done|].
      eapply Forall_impl; [exact Hk'|]. intros x. by apply key_lt_trans.
    + constructor; [by apply IH|].
      apply timers_insert_keys_Forall; [by apply key_total|done].
Qed.

Lemma timers_erase_sorted k m : timers_sorted m → timers_sorted (timers_erase k m).
Proof.
  unfold timers_sorted. induction m as [|[k' h'] m IH]; simpl; intros Hs; [done|].
  apply StronglySorted_inv in Hs as [Hm Hk'].
  destruct (key_eqb k k'); [done|]. simpl.
  constructor; [by apply IH|by apply timers_erase_keys_Forall].
Qed.

Lemma processTimeOps_sorted ops m : timers_sorted m → timers_sorted (processTimeOps ops m).
Proof.
  revert m. induction ops as [|[id w h|id w] ops IH]; intros m Hs; simpl; [done| |].
  - by apply IH, timers_insert_sorted.
  - by apply IH, timers_erase_sorted.
Qed.

Lemma processTimeOps_app ops ops' m :
  processTimeOps (ops ++ ops') m = processTimeOps ops' (processTimeOps ops m).
Proof.
  revert m. induction ops as [|[id w h|id w] ops IH]; intros m; simpl; by rewrite ?IH.
Qed.

(** Lookups after an insertion and after an erasure. *)
Lemma timers_find_insert_ne k k' h m :
  k' ≠ k → timers_find k' (timers_insert k h m) = timers_find k' m.
Proof.
  intros Hne. induction m as [|[k0 h0] m IH]; simpl.
  - by apply key_eqb_neq in Hne as ->.
  - destruct (key_eqb k k0); [done|]. destruct (key_ltb k k0); simpl.
    + by apply key_eqb_neq in Hne as ->.
    + by rewrite IH.
Qed.

Lemma timers_find_insert_fresh k h m :
  timers_find k m = None → timers_find k (timers_insert k h m) = Some h.
Proof.
  induction m as [|[k0 h0] m IH]; simpl.
  - by rewrite key_eqb_refl.
  - destruct (key_eqb k k0) eqn:Heq; [done|]. intros Hnone.
    destruct (key_ltb k k0); simpl.
    + by rewrite key_eqb_refl.
    + rewrite Heq. by apply IH.
Qed.

Lemma timers_erase_insert_fresh k h m :
  timers_find k m = None → timers_erase k (timers_insert k h m) = m.
Proof.
  induction m as [|[k0 h0] m IH]; simpl.
  - by rewrite key_eqb_refl.
  - destruct (key_eqb k k0) eqn:Heq; [done|]. intros Hnone.
    destruct (key_ltb k k0); simpl.
    + by rewrite key_eqb_refl.
    + rewrite Heq. by rewrite IH.
Qed.

Lemma timers_find_erase_ne k k' m :
  k' ≠ k → timers_find k' (timers_erase k m) = timers_find k' m.
Proof.
  intros Hne. induction m as [|[k0 h0] m IH]; simpl; [done|].
  destruct (key_eqb k k0) eqn:Heq; simpl.
  - apply key_eqb_eq in Heq as <-. by apply key_eqb_neq in Hne as ->.
  - by rewrite IH.
Qed.

Lemma timers_find_erase k m : timers_sorted m → timers_find k (timers_erase k m) = None.
Proof.
  unfold timers_sorted. induction m as [|[k0 h0] m IH]; simpl; intros Hs; [done|].
  apply StronglySorted_inv in Hs as [Hm Hk0].
  destruct (key_eqb k k0) eqn:Heq; simpl.
  - apply key_eqb_eq in Heq as ->. by apply timers_find_below.
  - rewrite Heq. by apply IH.
Qed.

Lemma timers_find_is_key k m : is_Some (timers_find k m) ↔ k ∈ m.*1.
Proof.
  induction m as [|[k0 h0] m IH]; simpl.
  - split; [by intros [? ?]|by intros ?%elem_of_nil].
  - rewrite elem_of_cons, <- IH. destruct (key_eqb k k0) eqn:Heq.
    + apply key_eqb_eq in Heq. split; eauto.
    + apply key_eqb_neq in Heq. split; [by right|]. by intros [?|?].
Qed.

End TimerMap.

(** ** What [processTimers] collects and answers *)

Section ProcessTimers.
Implicit Types (k : TimerKey) (h : coroutine_handle) (m : TimersType) (r : Reactor)
  (hs : list coroutine_handle) (clock : TimePoint).

Lemma partition_keys now m k :
  (k ∈ (partitionTimers now m).1 ↔ k ∈ m.*1 ∧ (k.1 ≤ now)%Z)
  ∧ (k ∈ (partitionTimers now m).2 ↔ k ∈ m.*1 ∧ (now < k.1)%Z).
Proof.
  induction m as [|[k0 h0] m [IHr IHp]]; simpl.
  - split; split; try (by intros ?%elem_of_nil); by intros [?%elem_of_nil _].
  - destruct (partitionTimers now m) as [ready pending]; simpl in *.
    destruct (Z.leb_spec k0.1 now); simpl; rewrite ?elem_of_cons, IHr, IHp.
    + split; [|split; [tauto|]].
      * split; [intros [->|[? ?]]; auto|intros [[->|?] ?]; auto].
      * intros [[->|?] ?]; [exfalso; lia|auto].
    + split; [split; [tauto|]|].
      * intros [[->|?] ?]; [exfalso; lia|auto].
      * split; [intros [->|[? ?]]; auto|intros [[->|?] ?]; auto].
Qed.

Lemma partition_Forall (P : TimerKey → Prop) now m :
  Forall P (m.*1) →
  Forall P (partitionTimers now m).1 ∧ Forall P (partitionTimers now m).2.
Proof.
  rewrite !Forall_forall. intros HP. split; intros k Hk.
  - apply HP. apply (partition_keys now m k) in Hk. tauto.
  - apply HP. apply (partition_keys now m k) in Hk. tauto.
Qed.

Lemma partition_sorted now m :
  timers_sorted m →
  StronglySorted key_lt (partitionTimers now m).1.
Proof.
  unfold timers_sorted. induction m as [|[k0 h0] m IH]; simpl; intros Hs; [constructor|].
  apply StronglySorted_inv in Hs as [Hm Hk0].
  pose proof (partition_Forall (key_lt k0) now m Hk0) as [Hready _].
  specialize (IH Hm).
  destruct (partitionTimers now m) as [ready pending]; simpl in *.
  destruct (k0.1 <=? now)%Z; simpl; [by constructor|done].
Qed.

Lemma min_element_spec (l : list TimerKey) :
  match min_element l with
  | None => l = []
  | Some b => b ∈ l ∧ ∀ x, x ∈ l → (b.1 ≤ x.1)%Z
  end.
Proof.
  induction l as [|a l IH]; simpl; [done|].
  destruct (min_element l) as [b|].
  - destruct IH as [Hb Hmin]. destruct (Z.ltb_spec b.1 a.1); unfold TimePoint in *.
    + split; [by right|]. intros x [->|Hx]%elem_of_cons; [lia|by apply Hmin].
    + split; [by left|]. intros x [->|Hx]%elem_of_cons; [lia|].
      specialize (Hmin x Hx). lia.
  - subst l. split; [by left|]. by intros x [->|?%elem_of_nil]%elem_of_cons.
Qed.

(** X1.  [processTimers] keeps the timer map in key order, one entry per key. *)
Theorem processTimers_keeps_sorted clock hs r :
  timers_sorted (mTimers r) →
  timers_sorted (mTimers (processTimers clock hs r).2).
Proof.
  intros Hs. rewrite processTimers_closed. simpl. by apply processTimeOps_sorted.
Qed.

(** X2.  [processTimers] appends one handle for each entry whose expiry is not
    later than the clock reading plus 1ns, and for no other entry, in
    increasing order of (expiry, id). *)
Theorem processTimers_collects_in_order clock hs r :
  timers_sorted (mTimers r) →
  let timers := processTimeOps (mTimerOps r) (mTimers r) in
  ∃ keys collected,
    (processTimers clock hs r).1.2 = hs ++ collected
    ∧ Forall2 (fun k h => timers_find k timers = Some h) keys collected
    ∧ StronglySorted key_lt keys
    ∧ ∀ k, k ∈ keys ↔ is_Some (timers_find k timers) ∧ (k.1 ≤ clock + 1)%Z.
Proof.
  intros Hs timers. rewrite processTimers_closed. fold timers. simpl.
  exists (partitionTimers (clock + 1)%Z timers).1, (due_handles clock timers).
  repeat apply conj.
  - reflexivity.
  - unfold due_handles.
    pose proof (partition_ready_found (clock + 1)%Z timers) as Hfound.
    induction Hfound as [|k keys [h Hk] _ IH]; simpl; [constructor|].
    constructor; [by rewrite Hk|exact IH].
  - apply partition_sorted, processTimeOps_sorted, Hs.
  - intros k. rewrite timers_find_is_key. apply partition_keys.
Qed.

(** In exact arithmetic: when timers are queued or pending and none is due,
    [processTimers] collects nothing and answers the time left until the
    earliest expiry. *)
Lemma processTimers_duration_exact clock hs r :
  let timers := processTimeOps (mTimerOps r) (mTimers r) in
  timers ≠ [] →
  (∀ k, k ∈ timers.*1 → (clock + 1 < k.1)%Z) →
  ∃ d k, processTimers clock hs r
         = (Some d, hs, with_mTimerOps [] (with_mTimers timers r))
         ∧ k ∈ timers.*1 ∧ d = (k.1 - (clock + 1))%Z ∧ (0 < d)%Z
         ∧ ∀ k', k' ∈ timers.*1 → (d ≤ k'.1 - (clock + 1))%Z.
Proof.
  intros timers Hne Hlate. rewrite processTimers_closed. fold timers.
  unfold next_duration, due_handles.
  assert ((partitionTimers (clock + 1)%Z timers).1 = []) as Hready.
  { destruct (partitionTimers (clock + 1)%Z timers).1 as [|k ready] eqn:Hr; [done|].
    assert (k ∈ (partitionTimers (clock + 1)%Z timers).1) as Hk by (rewrite Hr; by left).
    apply partition_keys in Hk as [Hk Hdue]. specialize (Hlate k Hk). lia. }
  rewrite Hready. simpl. rewrite app_nil_r.
  pose proof (min_element_spec (partitionTimers (clock + 1)%Z timers).2) as Hmin.
  destruct (min_element _) as [b|].
  - destruct Hmin as [Hb Hmin]. apply partition_keys in Hb as [Hb Hlt].
    exists (b.1 - (clock + 1))%Z, b.
    destruct (Z.ltb_spec (b.1 - (clock + 1)) 0); [lia|].
    repeat apply conj; try done; try lia.
    intros k' Hk'. assert (b.1 ≤ k'.1)%Z; [|lia].
    apply Hmin, partition_keys. split; [done|by apply Hlate].
  - exfalso. destruct timers as [|[k0 h0] timers']; [done|].
    assert (k0 ∈ (partitionTimers (clock + 1)%Z ((k0, h0) :: timers')).2) as Hk0.
    { apply partition_keys. split; [by left|]. apply Hlate. by left. }
    rewrite Hmin in Hk0. by apply elem_of_nil in Hk0.
Qed.

Lemma processTimers_int64_in_range clock hs r :
  time_in_range clock (processTimeOps (mTimerOps r) (mTimers r)) →
  processTimers_int64 clock hs r = Done (processTimers clock hs r).
Proof.
  intros [Hnow Hdiff]. unfold processTimers_int64. rewrite Hnow. simpl.
  pose proof (min_element_spec
                (partitionTimers (clock + 1)%Z
                   (processTimeOps (mTimerOps r) (mTimers r))).2) as Hmin.
  destruct (partitionTimers _ _) as [ready pending] eqn:Hp. simpl in Hmin.
  destruct ready; [|done]. destruct (min_element pending) as [it|]; [|done].
  destruct Hmin as [Hit _].
  assert (it ∈ (partitionTimers (clock + 1)%Z
                  (processTimeOps (mTimerOps r) (mTimers r))).2) as Hin
    by (by rewrite Hp).
  apply partition_keys in Hin as [Hin _]. by rewrite (Hdiff it Hin).
Qed.

(** With the one timer at the last instant of the clock and the clock
    reading -5, the time left does not fit 64 bits. *)
Lemma processTimers_int64_overflow :
  processTimers_int64 (-5)%Z [] MoreExamples.reactor_far_timer = Undefined SignedOverflow.
Proof. vm_compute. reflexivity. Qed.

(** X3.  When timers are queued or pending, none is due, and the clock
    reading plus 1ns and the time from there to each expiry fit 64 bits,
    [processTimers] has no overflow, collects nothing and answers the time
    left until the earliest expiry, which is positive: in that range the
    clamp at 0 is not used. *)
Theorem processTimers_duration_pending clock hs r :
  let timers := processTimeOps (mTimerOps r) (mTimers r) in
  timers ≠ [] →
  (∀ k, k ∈ timers.*1 → (clock + 1 < k.1)%Z) →
  time_in_range clock timers →
  ∃ d k, processTimers_int64 clock hs r
         = Done (Some d, hs, with_mTimerOps [] (with_mTimers timers r))
         ∧ k ∈ timers.*1 ∧ d = (k.1 - (clock + 1))%Z ∧ (0 < d < 2 ^ 63)%Z
         ∧ ∀ k', k' ∈ timers.*1 → (d ≤ k'.1 - (clock + 1))%Z.
Proof.
  intros timers Hne Hlate Hrange.
  destruct (processTimers_duration_exact clock hs r Hne Hlate)
    as (d & k & Hpt & Hk & Hd & Hpos & Hmin).
  exists d, k. rewrite (processTimers_int64_in_range clock hs r Hrange), Hpt.
  repeat apply conj; try done.
  destruct Hrange as [_ Hdiff]. specialize (Hdiff k Hk). fold timers in Hk.
  unfold int64b in Hdiff. apply andb_true_iff in Hdiff as [_ Hup].
  apply Z.ltb_lt in Hup. unfold TimePoint, duration in *. lia.
Qed.

(** X4.  [processTimers] answers no duration exactly when it collected a handle. *)
Theorem processTimers_no_duration_iff_collected clock hs r :
  (processTimers clock hs r).1.1 = None ↔ (processTimers clock hs r).1.2 ≠ hs.
Proof.
  rewrite processTimers_closed. simpl. unfold next_duration, due_handles.
  destruct (partitionTimers _ _).1 as [|k ready]; simpl.
  - rewrite app_nil_r. destruct (min_element _); split; congruence.
  - split; [|done]. intros _ Heq.
    apply (f_equal length) in Heq. rewrite length_app in Heq. simpl in Heq. lia.
Qed.

End ProcessTimers.

(** ** Inserting and removing timers *)

Section TimerCalls.
Implicit Types (k : TimerKey) (h : coroutine_handle) (m : TimersType) (r : Reactor)
  (hs : list coroutine_handle) (clock when : TimePoint).

Lemma due_handles_Forall2 clock m :
  Forall2 (fun k h => timers_find k m = Some h)
    (partitionTimers (clock + 1)%Z m).1 (due_handles clock m).
Proof.
  unfold due_handles.
  pose proof (partition_ready_found (clock + 1)%Z m) as Hfound.
  induction Hfound as [|k keys [h Hk] _ IH]; simpl; [constructor|].
  constructor; [by rewrite Hk|exact IH].
Qed.

(** X5.  A timer removed before the reactor processed its insertion leaves no
    trace: [processTimers] collects and answers what it would have without
    the two calls, and leaves the same timer map. *)
Theorem timer_cancelled_before_processing when h clock hs r :
  timers_find (when, ID_GENERATOR r) (processTimeOps (mTimerOps r) (mTimers r)) = None →
  let r' := removeTimer when (insertTimer when h r).1 (insertTimer when h r).2 in
  (processTimers clock hs r').1 = (processTimers clock hs r).1
  ∧ mTimers (processTimers clock hs r').2 = mTimers (processTimers clock hs r).2.
Proof.
  intros Hfresh r'. rewrite !processTimers_closed. subst r'. simpl.
  rewrite !processTimeOps_app. simpl.
  by rewrite timers_erase_insert_fresh.
Qed.

(** X6.  After [removeTimer when id], [processTimers] has no entry for
    [(when, id)] in the map, collects no handle for that key, and keeps the
    other entries as they are. *)
Theorem removed_timer_not_collected when id clock hs r :
  timers_sorted (mTimers r) →
  let timers := processTimeOps (mTimerOps r) (mTimers r) in
  let done := processTimers clock hs (removeTimer when id r) in
  timers_find (when, id) (mTimers done.2) = None
  ∧ (∀ k, k ≠ (when, id) → timers_find k (mTimers done.2) = timers_find k timers)
  ∧ ∃ keys collected,
      done.1.2 = hs ++ collected
      ∧ Forall2 (fun k h => timers_find k (mTimers done.2) = Some h) keys collected
      ∧ (when, id) ∉ keys.
Proof.
  intros Hs timers done. subst done. rewrite processTimers_closed. simpl.
  rewrite processTimeOps_app. fold timers. simpl.
  assert (timers_find (when, id) (timers_erase (when, id) timers) = None) as Hgone
    by (apply timers_find_erase, processTimeOps_sorted, Hs).
  repeat apply conj.
  - exact Hgone.
  - intros k Hk. by apply timers_find_erase_ne.
  - eexists _, _. split; [reflexivity|]. split; [apply due_handles_Forall2|].
    intros Hin%partition_keys. destruct Hin as [Hin _].
    apply timers_find_is_key in Hin as [h Hin]. congruence.
Qed.

(** X7.  A timer inserted with an expiry that is not later than the clock reading
    plus 1ns is collected by the next [processTimers], which answers no
    duration and keeps the entry in the map. *)
Theorem inserted_timer_collected_when_due when h clock hs r :
  timers_find (when, ID_GENERATOR r) (processTimeOps (mTimerOps r) (mTimers r)) = None →
  (when ≤ clock + 1)%Z →
  let done := processTimers clock hs (insertTimer when h r).2 in
  h ∈ done.1.2 ∧ done.1.1 = None
  ∧ timers_find (when, (insertTimer when h r).1) (mTimers done.2) = Some h.
Proof.
  intros Hfresh Hdue done. subst done. rewrite processTimers_closed. simpl.
  rewrite processTimeOps_app. simpl.
  set (timers := processTimeOps (mTimerOps r) (mTimers r)) in *.
  set (k := (when, ID_GENERATOR r)).
  assert (timers_find k (timers_insert k h timers) = Some h) as Hfound
    by (by apply timers_find_insert_fresh).
  assert (k ∈ (partitionTimers (clock + 1)%Z (timers_insert k h timers)).1) as Hready.
  { apply partition_keys. split; [|done]. apply timers_find_is_key. eauto. }
  repeat apply conj.
  - apply elem_of_app. right. unfold due_handles.
    apply list_elem_of_fmap. exists k. by rewrite Hfound.
  - unfold next_duration. by destruct (partitionTimers _ _).1; [apply elem_of_nil in Hready|].
  - exact Hfound.
Qed.

(** X8.  A timer inserted with a later expiry is put in the map and not
    collected; [processTimers] then either collects other timers, or answers
    a duration that does not pass the timer's expiry. *)
Theorem inserted_timer_pending_until_due when h clock hs r :
  timers_find (when, ID_GENERATOR r) (processTimeOps (mTimerOps r) (mTimers r)) = None →
  (clock + 1 < when)%Z →
  let done := processTimers clock hs (insertTimer when h r).2 in
  timers_find (when, (insertTimer when h r).1) (mTimers done.2) = Some h
  ∧ (∃ keys collected,
        done.1.2 = hs ++ collected
        ∧ Forall2 (fun k h => timers_find k (mTimers done.2) = Some h) keys collected
        ∧ (when, (insertTimer when h r).1) ∉ keys)
  ∧ match done.1.1 with
    | Some d => (0 ≤ d ≤ when - (clock + 1))%Z
    | None => done.1.2 ≠ hs
    end.
Proof.
  intros Hfresh Hlate done.
  pose proof (processTimers_no_duration_iff_collected clock hs (insertTimer when h r).2)
    as Hnone.
  fold done in Hnone. revert Hnone.
  subst done. rewrite processTimers_closed. simpl.
  rewrite processTimeOps_app. simpl.
  set (timers := processTimeOps (mTimerOps r) (mTimers r)) in *.
  set (k := (when, ID_GENERATOR r)).
  intros Hnone.
  assert (timers_find k (timers_insert k h timers) = Some h) as Hfound
    by (by apply timers_find_insert_fresh).
  repeat apply conj.
  - exact Hfound.
  - eexists _, _. split; [reflexivity|]. split; [apply due_handles_Forall2|].
    intros [_ Hin]%partition_keys. simpl in Hin. lia.
  - destruct (next_duration clock (timers_insert k h timers)) as [d|] eqn:Hd;
      [|by apply Hnone].
    unfold next_duration in Hd.
    destruct (partitionTimers (clock + 1)%Z (timers_insert k h timers)).1; [|done].
    pose proof (min_element_spec
                  (partitionTimers (clock + 1)%Z (timers_insert k h timers)).2) as Hmin.
    destruct (min_element _) as [b|].
    + destruct Hmin as [_ Hmin].
      assert (b.1 ≤ k.1)%Z as Hle.
      { apply Hmin, partition_keys. split; [|done]. apply timers_find_is_key. eauto. }
      subst k. simpl in Hle. injection Hd as <-. unfold TimePoint, duration, TimerKey in *.
      case_match eqn:Hneg; [apply Z.ltb_lt in Hneg|apply Z.ltb_ge in Hneg]; lia.
    + injection Hd as <-. lia.
Qed.

End TimerCalls.

Lemma processTimers_keeps_sorted_witness :
  timers_sorted (mTimers MoreExamples.reactor_two_timers)
  ∧ timers_sorted (mTimers (processTimers 10%Z []
                              (removeTimer 0%Z 0 MoreExamples.reactor_two_timers)).2).
Proof.
  assert (timers_sorted (mTimers MoreExamples.reactor_two_timers)) as Hs
    by (repeat constructor).
  split; [exact Hs|].
  apply (processTimers_keeps_sorted 10%Z [] (removeTimer 0%Z 0 MoreExamples.reactor_two_timers)).
  exact Hs.
Defined.

Lemma processTimers_collects_in_order_witness :
  ∃ keys collected,
    (processTimers 60%Z [] MoreExamples.reactor_two_timers).1.2 = [] ++ collected
    ∧ Forall2 (fun k h => timers_find k (mTimers MoreExamples.reactor_two_timers) = Some h)
        keys collected
    ∧ StronglySorted key_lt keys
    ∧ ∀ k, k ∈ keys ↔ is_Some (timers_find k (mTimers MoreExamples.reactor_two_timers))
                     ∧ (k.1 ≤ 60 + 1)%Z.
Proof.
  apply (processTimers_collects_in_order 60%Z [] MoreExamples.reactor_two_timers).
  repeat constructor.
Defined.

Lemma processTimers_duration_pending_witness :
  ∃ d k, processTimers_int64 10%Z [] (removeTimer 0%Z 0 MoreExamples.reactor_two_timers)
         = Done (Some d, [],
                 with_mTimerOps [] (with_mTimers [((50%Z, 1), Some 8)]
                                      (removeTimer 0%Z 0 MoreExamples.reactor_two_timers)))
         ∧ k ∈ [((50%Z, 1), Some 8)].*1 ∧ d = (k.1 - (10 + 1))%Z ∧ (0 < d < 2 ^ 63)%Z
         ∧ ∀ k', k' ∈ [((50%Z, 1), Some 8)].*1 → (d ≤ k'.1 - (10 + 1))%Z.
Proof.
  apply (processTimers_duration_pending 10%Z []
           (removeTimer 0%Z 0 MoreExamples.reactor_two_timers)).
  - discriminate.
  - intros k [->|[]%elem_of_nil]%elem_of_cons. simpl. lia.
  - split; [reflexivity|].
    intros k [->|[]%elem_of_nil]%elem_of_cons. reflexivity.
Defined.

Lemma timer_cancelled_before_processing_witness :
  (processTimers 10%Z [] (removeTimer 5%Z 2
      (insertTimer 5%Z (Some 9) MoreExamples.reactor_two_timers).2)).1
  = (processTimers 10%Z [] MoreExamples.reactor_two_timers).1.
Proof.
  apply (timer_cancelled_before_processing 5%Z (Some 9) 10%Z []
           MoreExamples.reactor_two_timers).
  reflexivity.
Defined.

Lemma removed_timer_not_collected_witness :
  timers_find (0%Z, 0)
    (mTimers (processTimers 10%Z [] (removeTimer 0%Z 0 MoreExamples.reactor_two_timers)).2)
  = None.
Proof.
  apply (removed_timer_not_collected 0%Z 0 10%Z [] MoreExamples.reactor_two_timers).
  repeat constructor.
Defined.

Lemma inserted_timer_collected_when_due_witness :
  Some 9 ∈ (processTimers 10%Z []
              (insertTimer 5%Z (Some 9) MoreExamples.reactor_two_timers).2).1.2.
Proof.
  apply (inserted_timer_collected_when_due 5%Z (Some 9) 10%Z []
           MoreExamples.reactor_two_timers).
  - reflexivity.
  - simpl. lia.
Defined.

Lemma inserted_timer_pending_until_due_witness :
  timers_find (90%Z, 2)
    (mTimers (processTimers 60%Z []
                (insertTimer 90%Z (Some 9) MoreExamples.reactor_two_timers).2).2)
  = Some (Some 9).
Proof.
  apply (inserted_timer_pending_until_due 90%Z (Some 9) 60%Z []
           MoreExamples.reactor_two_timers).
  - reflexivity.
  - simpl. lia.
Defined.

(** ** Sources: interest mask, [updateIo], [removeIo] *)

Section Sources.
Implicit Types (h : coroutine_handle) (s source : Source) (r : Reactor) (ev : Event)
  (hs : list coroutine_handle).

Lemma getEvent_flags s :
  ev_key (getEvent s) = key s
  ∧ readable (getEvent s) = negb (isEmpty (read (state s)))
  ∧ writable (getEvent s) = negb (isEmpty (write (state s))).
Proof.
  unfold getEvent. destruct (isEmpty (read (state s))), (isEmpty (write (state s))); done.
Qed.

(** X9.  The interest mask after a parker was installed in an empty slot: the
    direction is of interest exactly when the handle installed is not null
    (a null handle is accepted and leaves the slot empty), and the other
    direction and the key are as before. *)
Theorem interest_mask_after_parking h s :
  (handle (read (state s)) = nullptr →
     readable (getEvent (setReadable h s).2) = bool_decide (h ≠ nullptr)
     ∧ writable (getEvent (setReadable h s).2) = writable (getEvent s)
     ∧ ev_key (getEvent (setReadable h s).2) = key s)
  ∧ (handle (write (state s)) = nullptr →
     writable (getEvent (setWritable h s).2) = bool_decide (h ≠ nullptr)
     ∧ readable (getEvent (setWritable h s).2) = readable (getEvent s)
     ∧ ev_key (getEvent (setWritable h s).2) = key s).
Proof.
  split; intros Hslot%isEmpty_true.
  - destruct (getEvent_flags (setReadable h s).2) as (-> & -> & ->).
    destruct (getEvent_flags s) as (_ & _ & ->).
    unfold setReadable. rewrite Hslot. simpl. by destruct h.
  - destruct (getEvent_flags (setWritable h s).2) as (-> & -> & ->).
    destruct (getEvent_flags s) as (_ & -> & _).
    unfold setWritable. rewrite Hslot. simpl. by destruct h.
Qed.

(** X10.  [updateIo] fails its assertion when the key of its argument is not in
    the slab; otherwise it submits, for the descriptor of its argument, the
    mask of the object the slab holds under that key: that object's key,
    readable exactly when its read slot is occupied, writable exactly when
    its write slot is occupied. *)
Theorem updateIo_submits_slab_mask (poller_mod : Z → Event → StdResult unit) source r :
  match mSources r !! key source with
  | None => updateIo poller_mod source r = Undefined AssertionFailed
  | Some obj =>
      ∃ ev, updateIo poller_mod source r = Done (poller_mod (fd source) ev)
            ∧ ev_key ev = key obj
            ∧ (readable ev = true ↔ handle (read (state obj)) ≠ nullptr)
            ∧ (writable ev = true ↔ handle (write (state obj)) ≠ nullptr)
  end.
Proof.
  unfold updateIo. destruct (mSources r !! key source) as [obj|]; [|done].
  exists (getEvent obj). destruct (getEvent_flags obj) as (Hk & Hr & Hw).
  rewrite Hr, Hw, !negb_true_iff, !isEmpty_false. done.
Qed.

(** X11.  [removeIo] on a source whose key is in the slab frees that key and no
    other, whatever the poller answers to the deregistration, and returns
    that answer; a second [removeIo] of the source fails its assertion. *)
Theorem removeIo_frees_key (poller_del : Z → StdResult unit) source r :
  is_Some (mSources r !! key source) →
  ∃ r', removeIo poller_del source r = Done (poller_del (fd source), r')
        ∧ mSources r' !! key source = None
        ∧ (∀ k, k ≠ key source → mSources r' !! k = mSources r !! k)
        ∧ mTimers r' = mTimers r ∧ mTimerOps r' = mTimerOps r
        ∧ removeIo poller_del source r' = Undefined AssertionFailed.
Proof.
  intros [obj Hobj]. unfold removeIo, Slab_tryRemove. rewrite Hobj.
  eexists. split; [reflexivity|]. simpl. rewrite lookup_delete_eq.
  repeat apply conj; try done. intros k Hk. by rewrite lookup_delete_ne.
Qed.

(** X12.  Once [removeIo] returned, an event that carries the key of the removed
    source is dropped by the dispatch of [react]: no handle is collected and
    the reactor is left as it is. *)
Theorem event_after_removeIo_dropped (poller_del : Z → StdResult unit) source r res r' ev hs :
  removeIo poller_del source r = Done (res, r') →
  ev_key ev = key source →
  dispatchEvent ev (hs, r') = (hs, r').
Proof.
  unfold removeIo, Slab_tryRemove.
  destruct (mSources r !! key source); [|discriminate].
  intros [= _ <-] Hkey. unfold dispatchEvent. simpl.
  by rewrite Hkey, lookup_delete_eq.
Qed.

End Sources.

Lemma interest_mask_after_parking_witness :
  writable (getEvent (setWritable (Some 8) Examples.src_reader).2) = true
  ∧ readable (getEvent (setWritable (Some 8) Examples.src_reader).2) = true.
Proof.
  destruct (interest_mask_after_parking (Some 8) Examples.src_reader) as [_ Hw].
  destruct (Hw eq_refl) as (Hwritable & Hreadable & _).
  split; [exact Hwritable|exact Hreadable].
Defined.

Lemma removeIo_frees_key_witness :
  ∃ r', removeIo (fun _ => Unexpected 9%Z) Examples.src_reader Examples.reactor_reader
        = Done (Unexpected 9%Z, r')
        ∧ mSources r' !! 0 = None.
Proof.
  destruct (removeIo_frees_key (fun _ => Unexpected 9%Z) Examples.src_reader
              Examples.reactor_reader) as (r' & Hdone & Hgone & _).
  - exists Examples.src_reader. reflexivity.
  - exists r'. split; [exact Hdone|exact Hgone].
Defined.

Lemma event_after_removeIo_dropped_witness :
  dispatchEvent Examples.ev_both
    ([], with_mSources (delete 0 (mSources Examples.reactor_reader)) Examples.reactor_reader)
  = ([], with_mSources (delete 0 (mSources Examples.reactor_reader)) Examples.reactor_reader).
Proof.
  apply (event_after_removeIo_dropped (fun _ => Ok tt) Examples.src_reader
           Examples.reactor_reader (Ok tt)).
  - reflexivity.
  - reflexivity.
Defined.

(** ** What [react] does to the reactor *)

Section ReactEffects.
Implicit Types (timeout : option duration) (env : ReactEnv) (r : Reactor) (rd : Reacted)
  (ev : Event) (evs : list Event) (hs : list coroutine_handle) (s : Source).

Lemma emptied_refl s : emptied s s.
Proof. unfold emptied. auto. Qed.

Lemma emptied_trans s1 s2 s3 : emptied s1 s2 → emptied s2 s3 → emptied s1 s3.
Proof.
  unfold emptied. intros (Hf & Hk & Hr & Hw) (Hf' & Hk' & Hr' & Hw').
  repeat apply conj; try congruence.
  - destruct Hr' as [->|?]; auto.
  - destruct Hw' as [->|?]; auto.
Qed.

Lemma option_emptied_refl (o : option Source) : option_Forall2 emptied o o.
Proof. destruct o; constructor. apply emptied_refl. Qed.

Lemma option_emptied_trans (o1 o2 o3 : option Source) :
  option_Forall2 emptied o1 o2 → option_Forall2 emptied o2 o3 →
  option_Forall2 emptied o1 o3.
Proof.
  intros H12 H23. destruct H12; inversion H23; subst; constructor.
  eapply emptied_trans; eauto.
Qed.

(** The dispatch changes the slab only. *)
Lemma dispatchEvent_with_mSources ev hs r :
  (dispatchEvent ev (hs, r)).2 = with_mSources (mSources (dispatchEvent ev (hs, r)).2) r.
Proof.
  unfold dispatchEvent.
  destruct (mSources r !! ev_key ev); [|by destruct r].
  destruct (writable ev); [done|]. destruct (readable ev); [done|by destruct r].
Qed.

Lemma dispatchEvents_with_mSources evs hs r :
  (dispatchEvents evs hs r).2 = with_mSources (mSources (dispatchEvents evs hs r).2) r.
Proof.
  unfold dispatchEvents. revert hs r.
  induction evs as [|ev evs IH]; intros hs r; cbn [fold_left]; [by destruct r|].
  destruct (dispatchEvent ev (hs, r)) as [hs1 r1] eqn:Hstep.
  rewrite IH at 1.
  pose proof (dispatchEvent_with_mSources ev hs r) as Hr1. rewrite Hstep in Hr1.
  simpl in Hr1. rewrite Hr1. reflexivity.
Qed.

Lemma dispatchEvent_emptied ev hs r k :
  option_Forall2 emptied (mSources r !! k) (mSources (dispatchEvent ev (hs, r)).2 !! k).
Proof.
  unfold dispatchEvent.
  destruct (mSources r !! ev_key ev) as [src|] eqn:Hsrc; [|apply option_emptied_refl].
  destruct (writable ev); [|destruct (readable ev); [|apply option_emptied_refl]]; simpl.
  all: destruct (decide (k = ev_key ev)) as [->|Hne];
    [rewrite lookup_insert_eq, Hsrc; constructor; unfold emptied; simpl; auto
    |rewrite lookup_insert_ne by done; apply option_emptied_refl].
Qed.

Lemma dispatchEvents_emptied evs hs r k :
  option_Forall2 emptied (mSources r !! k) (mSources (dispatchEvents evs hs r).2 !! k).
Proof.
  unfold dispatchEvents. revert hs r.
  induction evs as [|ev evs IH]; intros hs r; cbn [fold_left];
    [apply option_emptied_refl|].
  destruct (dispatchEvent ev (hs, r)) as [hs1 r1] eqn:Hstep.
  eapply option_emptied_trans; [|apply IH].
  pose proof (dispatchEvent_emptied ev hs r k) as H1. by rewrite Hstep in H1.
Qed.

(** X13.  Up to its call of [e.execute(handles)], [react] adds no source to the
    slab, removes none and installs no parker: in the reactor it leaves to
    the executor every source has its descriptor and key, and each of its
    slots is as before or empty. *)
Theorem react_only_empties_slots timeout env r rd (k : nat) :
  react_collect timeout env r = Done rd →
  option_Forall2 emptied (mSources r !! k) (mSources (after rd) !! k).
Proof.
  unfold react_collect. rewrite processTimers_closed. simpl.
  destruct (poller_wait env _) as [count events|e].
  - destruct (count =? 0)%nat.
    + destruct (effectiveWait _ _) as [w|]; [|discriminate].
      destruct (negb (w =? 0)%Z).
      * rewrite processTimers_closed. simpl. intros [= <-]. simpl.
        apply option_emptied_refl.
      * intros [= <-]. simpl. apply option_emptied_refl.
    + match goal with |- context [dispatchEvents ?evs ?hs ?r0] =>
        pose proof (dispatchEvents_emptied evs hs r0 k) as Hem;
        destruct (dispatchEvents evs hs r0) as [hs' r'] end.
      intros [= <-]. exact Hem.
  - destruct (e =? interrupted)%Z; intros [= <-]; apply option_emptied_refl.
Qed.

(** X14.  The bookkeeping of [react] up to its call of [e.execute(handles)]: in
    the reactor it leaves to the executor the tick has grown by one
    (wrapping at 2^64), the queue of timer operations is drained, the event
    buffer holds what the poller reported (nothing after a failed wait), and
    the counter of timer ids is as before. *)
Theorem react_bookkeeping timeout env r rd :
  react_collect timeout env r = Done rd →
  mTicker (after rd) = size_t_wrap (mTicker r + 1)
  ∧ mTimerOps (after rd) = []
  ∧ mEvents (after rd) = match poller_wait env (waited rd) with
                         | WaitOk _ events => events
                         | WaitErr _ => []
                         end
  ∧ ID_GENERATOR (after rd) = ID_GENERATOR r.
Proof.
  unfold react_collect. rewrite processTimers_closed. simpl.
  destruct (poller_wait env _) as [count events|e] eqn:Hwait.
  - destruct (count =? 0)%nat.
    + destruct (effectiveWait _ _) as [w|]; [|discriminate].
      destruct (negb (w =? 0)%Z).
      * rewrite processTimers_closed. simpl. intros [= <-]. simpl. by rewrite Hwait.
      * intros [= <-]. simpl. by rewrite Hwait.
    + match goal with |- context [dispatchEvents ?evs ?hs ?r0] =>
        pose proof (dispatchEvents_with_mSources evs hs r0) as Hr';
        destruct (dispatchEvents evs hs r0) as [hs' r'] end.
      simpl in Hr'. intros [= <-]. simpl. rewrite Hwait, Hr'. done.
  - destruct (e =? interrupted)%Z; intros [= <-]; simpl; by rewrite Hwait.
Qed.

Lemma react_collect_fuel timeout env r : react_collect timeout env r ≠ OutOfFuel.
Proof.
  unfold react_collect. rewrite processTimers_closed. simpl.
  set (wt := effectiveWait _ _).
  destruct (poller_wait env wt) as [count events|e].
  - destruct (count =? 0)%nat.
    + destruct wt as [w|]; [|discriminate].
      destruct (negb (w =? 0)%Z); [|discriminate].
      by destruct (processTimers _ _ _) as [[? ?] ?].
    + by destruct (dispatchEvents _ _ _).
  - by destruct (e =? interrupted)%Z.
Qed.

(** X15.  Called with a timeout, [react] always completes, and the wait it hands
    to the poller is never longer than that timeout. *)
Theorem react_with_timeout_completes (t : duration) env r :
  ∃ rd d, react_collect (Some t) env r = Done rd
          ∧ waited rd = Some d ∧ (d ≤ t)%Z.
Proof.
  assert (∃ d, wait_argument (Some t) (clock1 env) r = Some d ∧ (d ≤ t)%Z) as (d & Hd & Hle).
  { unfold wait_argument. destruct (next_duration _ _) as [n|]; simpl.
    - eexists. split; [done|]. lia.
    - eexists. split; [done|]. lia. }
  destruct (react_collect (Some t) env r) as [rd|f|] eqn:Hreact.
  - exists rd, d. split; [done|]. split; [|done].
    rewrite <- Hd. by apply react_collect_waited.
  - apply react_collect_undefined in Hreact as (_ & Hnone & _). congruence.
  - by apply react_collect_fuel in Hreact.
Qed.

(** X16.  With timers queued or pending, none due, and the clock reading plus
    1ns and the time from there to each expiry within 64 bits, the
    [processTimers] of [react] has no overflow and [react] hands the poller
    the time left until the earliest expiry, or the caller's timeout when
    that is shorter. *)
Theorem react_waits_until_earliest_timer timeout env r rd :
  let timers := processTimeOps (mTimerOps r) (mTimers r) in
  timers ≠ [] →
  (∀ k, k ∈ timers.*1 → (clock1 env + 1 < k.1)%Z) →
  time_in_range (clock1 env) timers →
  react_collect timeout env r = Done rd →
  processTimers_int64 (clock1 env) [] r = Done (processTimers (clock1 env) [] r)
  ∧ ∃ k, k ∈ timers.*1
         ∧ (∀ k', k' ∈ timers.*1 → (k.1 ≤ k'.1)%Z)
         ∧ waited rd = Some (match timeout with
                             | Some t => Z.min t (k.1 - (clock1 env + 1))
                             | None => (k.1 - (clock1 env + 1))%Z
                             end).
Proof.
  intros timers Hne Hlate Hrange Hdone.
  split; [by apply processTimers_int64_in_range|].
  apply react_collect_waited in Hdone. rewrite Hdone. unfold wait_argument. fold timers.
  destruct (processTimers_duration_exact (clock1 env) [] r Hne Hlate)
    as (d & k & Hpt & Hk & -> & _ & Hmin).
  rewrite processTimers_closed in Hpt. fold timers in Hpt.
  injection Hpt as Hnext _. rewrite Hnext.
  exists k. split; [done|]. split.
  - intros k' Hk'. specialize (Hmin k' Hk'). unfold TimePoint, duration in *. lia.
  - by destruct timeout.
Qed.

(** X17.  Events with pairwise different keys, each for a source in the slab whose
    slot chosen by the event's flags is occupied, collect exactly those
    parkers, one for each event, in the order of the events. *)
Theorem dispatch_collects_parkers_in_order evs hs r :
  NoDup (ev_key <$> evs) →
  Forall (fun ev => ∃ s c, mSources r !! ev_key ev = Some s
                           ∧ writable ev || readable ev = true
                           ∧ chosen_slot s ev = Some c) evs →
  ∃ taken : list nat,
    (dispatchEvents evs hs r).1 = hs ++ (Some <$> taken)
    ∧ Forall2 (fun ev c => ∃ s, mSources r !! ev_key ev = Some s
                                ∧ chosen_slot s ev = Some c) evs taken.
Proof.
  unfold dispatchEvents. revert hs r.
  induction evs as [|ev evs IH]; intros hs r Hnd Hall; cbn [fold_left].
  - exists []. simpl. by rewrite app_nil_r.
  - apply NoDup_cons in Hnd as [Hfresh Hnd].
    apply Forall_cons in Hall as [(s & c & Hs & Hflag & Hslot) Hall].
    assert (∃ r1, dispatchEvent ev (hs, r) = (hs ++ [Some c], r1)
                  ∧ ∀ k, k ≠ ev_key ev → mSources r1 !! k = mSources r !! k)
      as (r1 & Hstep & Hothers).
    { unfold dispatchEvent, chosen_slot in *. rewrite Hs.
      destruct (writable ev); simpl in *.
      - eexists. rewrite Hslot. split; [reflexivity|].
        intros k Hk. simpl. by rewrite lookup_insert_ne.
      - rewrite Hflag. eexists. rewrite Hslot. split; [reflexivity|].
        intros k Hk. simpl. by rewrite lookup_insert_ne. }
    rewrite Hstep.
    assert (∀ ev', ev' ∈ evs → mSources r1 !! ev_key ev' = mSources r !! ev_key ev')
      as Hsame.
    { intros ev' Hin. apply Hothers. intros Heq. apply Hfresh.
      rewrite <- Heq. by apply list_elem_of_fmap_2. }
    destruct (IH (hs ++ [Some c]) r1 Hnd) as (taken & Htaken & Hmatch).
    { rewrite Forall_forall in Hall |- *. intros ev' Hin.
      destruct (Hall ev' Hin) as (s' & c' & ? & ? & ?).
      exists s', c'. by rewrite Hsame. }
    exists (c :: taken). split.
    + rewrite Htaken. simpl. by rewrite <- app_assoc.
    + constructor; [eauto|].
      clear -Hmatch Hsame. induction Hmatch as [|ev' c' evs taken (s' & Hs' & Hc') _ IHm];
        constructor.
      * exists s'. rewrite <- Hsame; [done|by left].
      * apply IHm. intros ev'' Hin. apply Hsame. by right.
Qed.

End ReactEffects.

Lemma react_only_empties_slots_witness :
  ∃ rd, react_collect None Examples.env_both Examples.reactor_reader = Done rd
        ∧ option_Forall2 emptied (mSources Examples.reactor_reader !! 0)
            (mSources (after rd) !! 0).
Proof.
  eexists. split; [reflexivity|].
  apply (react_only_empties_slots None Examples.env_both Examples.reactor_reader).
  reflexivity.
Defined.

Lemma react_bookkeeping_witness :
  ∃ rd, react_collect None Examples.env_both Examples.reactor_inserted = Done rd
        ∧ mTicker (after rd) = size_t_wrap (mTicker Examples.reactor_inserted + 1)
        ∧ mTimerOps (after rd) = [].
Proof.
  eexists. split; [reflexivity|].
  split; apply (react_bookkeeping None Examples.env_both Examples.reactor_inserted);
    reflexivity.
Defined.

Lemma react_waits_until_earliest_timer_witness :
  ∃ rd (k : TimerKey), react_collect (Some 500%Z) Examples.env_sleep
            (insertTimer 100%Z (Some 0) Reactor_new).2 = Done rd
          ∧ waited rd = Some (Z.min 500 (k.1 - (clock1 Examples.env_sleep + 1))).
Proof.
  destruct (react_with_timeout_completes 500%Z Examples.env_sleep
              (insertTimer 100%Z (Some 0) Reactor_new).2) as (rd & d & Hdone & _).
  destruct (react_waits_until_earliest_timer (Some 500%Z) Examples.env_sleep
              (insertTimer 100%Z (Some 0) Reactor_new).2 rd) as (_ & k & _ & _ & Hwait).
  - discriminate.
  - intros k [->|[]%elem_of_nil]%elem_of_cons. simpl. lia.
  - split; [reflexivity|].
    intros k [->|[]%elem_of_nil]%elem_of_cons. reflexivity.
  - exact Hdone.
  - exists rd, k. split; [exact Hdone|exact Hwait].
Defined.

Lemma dispatch_collects_parkers_in_order_witness :
  ∃ taken : list nat,
    (dispatchEvents [Examples.ev_read] [] Examples.reactor_reader).1 = [] ++ (Some <$> taken).
Proof.
  destruct (dispatch_collects_parkers_in_order [Examples.ev_read] []
              Examples.reactor_reader) as (taken & Htaken & _).
  - repeat constructor. by intros ?%elem_of_nil.
  - repeat constructor. exists Examples.src_reader, 5. repeat split.
  - exists taken. exact Htaken.
Defined.

(** ** The inline executor's loops *)

Section InlineLoops.
Context {T : Type}.
Implicit Types (w : World T) (calls : list (Call T)) (code : Coroutines T)
  (ids : list nat) (envs : list ReactEnv).

Lemma spawned_ids calls : ∃ ids, spawned calls = Some <$> ids.
Proof.
  induction calls as [|c calls [ids IH]]; [by exists []|].
  rewrite (spawned_cons c calls), IH.
  destruct c; simpl; try (by exists ids). by eexists (_ :: ids).
Qed.

Lemma resume_Some code (c : nat) w :
  ∃ w' ids, resume code (Some c) w = Done w'
            ∧ resumed w' = resumed w ++ [c]
            ∧ mQueue (this w') = mQueue (this w) ++ (Some <$> ids)
            ∧ spawned (code c w) = Some <$> ids.
Proof.
  destruct (spawned_ids (code c w)) as [ids Hids].
  unfold resume. eexists _, ids. split; [reflexivity|].
  destruct (run_calls_effect (code c w) (with_resumed (resumed w ++ [c]) w)) as [Hres Hq].
  rewrite Hres, Hq, Hids. done.
Qed.

(** X18.  When the inner loop of [block] completes, the run queue is empty, every
    handle that was queued was a coroutine's, and those coroutines were
    resumed first, in queue order, before the tasks they spawned. *)
Theorem drain_runs_queue_in_order code (fuel : nat) w w' :
  drain code fuel w = Done w' →
  ∃ ids rest,
    mQueue (this w) = Some <$> ids
    ∧ resumed w' = resumed w ++ ids ++ rest
    ∧ mQueue (this w') = [].
Proof.
  revert w. induction fuel as [|fuel IH]; intros w; cbn [drain].
  - destruct (mQueue (this w)) eqn:Hq; [|discriminate].
    intros [= <-]. exists [], []. by rewrite Hq, app_nil_r.
  - destruct (mQueue (this w)) as [|[c|] queue] eqn:Hq.
    + intros [= <-]. exists [], []. by rewrite Hq, app_nil_r.
    + destruct (resume_Some code c (with_mQueue queue w))
        as (w1 & spawn & Hstep & Hres & Hq1 & _).
      rewrite Hstep. cbn [obind].
      intros (ids1 & rest1 & Hids1 & Hres' & Hq')%IH.
      rewrite Hq1 in Hids1. simpl in Hids1.
      symmetry in Hids1. apply fmap_app_inv in Hids1 as (q & sp & -> & Hsp & ->).
      exists (c :: q), (sp ++ rest1). repeat apply conj; [done| |done].
      rewrite Hres', Hres. simpl. by rewrite <- !app_assoc.
    + discriminate.
Qed.

(** X19.  When no coroutine spawns a task, the inner loop completes in as many
    turns as handles are queued, resumes them in queue order and nothing
    else, and leaves the run queue empty. *)
Theorem drain_completes_without_spawns code ids (fuel : nat) w :
  (∀ c w0, spawned (code c w0) = []) →
  mQueue (this w) = Some <$> ids →
  length ids ≤ fuel →
  ∃ w', drain code fuel w = Done w'
        ∧ resumed w' = resumed w ++ ids
        ∧ mQueue (this w') = [].
Proof.
  intros Hquiet. revert fuel w.
  induction ids as [|c ids IH]; intros fuel w Hq Hfuel.
  - exists w. destruct fuel; cbn [drain]; rewrite Hq; by rewrite app_nil_r.
  - destruct fuel as [|fuel]; simpl in Hfuel; [lia|].
    cbn [drain]. rewrite Hq. cbn [fmap list_fmap].
    destruct (resume_Some code c (with_mQueue (Some <$> ids) w))
      as (w1 & spawn & Hstep & Hres & Hq1 & Hsp).
    rewrite Hstep. cbn [obind].
    rewrite Hquiet in Hsp. symmetry in Hsp. apply fmap_nil_inv in Hsp as ->.
    simpl in Hq1. rewrite app_nil_r in Hq1.
    destruct (IH fuel w1 Hq1) as (w' & Hd & Hr & Hq'); [lia|].
    exists w'. repeat apply conj; try done.
    rewrite Hr, Hres. simpl. by rewrite <- app_assoc.
Qed.

End InlineLoops.

(** ** The inline executor driven by [react] *)

Section InlineDrive.
Context {T : Type}.
Implicit Types (w : World T) (calls : list (Call T)) (code : Coroutines T)
  (ids : list nat) (envs : list ReactEnv) (hs : list coroutine_handle).

Lemma execute_span_in_order code hs w w' :
  execute_span code hs w = Done w' →
  ∃ ids, hs = Some <$> ids ∧ resumed w' = resumed w ++ ids.
Proof.
  revert w. induction hs as [|[c|] hs IH]; intros w; cbn [execute_span].
  - intros [= <-]. exists []. by rewrite app_nil_r.
  - unfold execute.
    destruct (resume_Some code c w) as (w1 & spawn & Hstep & Hres & _).
    rewrite Hstep. cbn [obind].
    intros (ids & -> & Hres')%IH. exists (c :: ids). split; [done|].
    rewrite Hres', Hres. by rewrite <- app_assoc.
  - discriminate.
Qed.

(** Under the reading of [execute_span], a [react] on behalf of the inline
    executor only appends to the resume history. *)
Lemma inline_react_resumes_collected code (timeout : option duration) (env : ReactEnv)
    w (res : StdResult unit) w' :
  react (H := InlineExecutor_Executor1 code) timeout env w = Done (res, w') →
  ∃ rd ids, react_collect timeout env (GetReactor w) = Done rd
            ∧ handles rd = Some <$> ids
            ∧ resumed w' = resumed w ++ ids
            ∧ res = io.res rd.
Proof.
  unfold react. cbn [io.reactor io.with_reactor io.execute InlineExecutor_Executor1].
  destruct (react_collect timeout env (GetReactor w)) as [rd| |]; cbn [obind];
    try discriminate.
  destruct (execute_span code (handles rd) (with_GetReactor (after rd) w))
    as [w1| |] eqn:Hspan; cbn [obind]; try discriminate.
  intros [= <- <-]. apply execute_span_in_order in Hspan as (ids & Hids & Hres).
  exists rd, ids. done.
Qed.

Lemma drive_history code (fuel : nat) envs w w' :
  drive code fuel envs w = Done w' → resumed w `prefix_of` resumed w'.
Proof.
  revert w. induction envs as [|env envs IH]; intros w; cbn [drive].
  - destruct (drain code fuel w) as [w1| |] eqn:Hdrain; cbn [obind]; try discriminate.
    apply drain_runs_queue_in_order in Hdrain as (ids & rest & _ & Hres & _).
    destruct (exit_test w1); [|discriminate]. intros [= <-].
    rewrite Hres. by apply prefix_app_r.
  - destruct (drain code fuel w) as [w1| |] eqn:Hdrain; cbn [obind]; try discriminate.
    apply drain_runs_queue_in_order in Hdrain as (ids & rest & _ & Hres & _).
    assert (resumed w `prefix_of` resumed w1) as Hpre
      by (rewrite Hres; by apply prefix_app_r).
    destruct (exit_test w1); [by intros [= <-]|].
    destruct (react None env w1) as [[res w2]| |] eqn:Hreact; cbn [obind];
      try discriminate.
    apply inline_react_resumes_collected in Hreact as (rd & ids2 & _ & _ & Hres2 & _).
    intros Hdone%IH. simpl in Hdone.
    etrans; [exact Hpre|]. etrans; [|exact Hdone].
    rewrite Hres2. by apply prefix_app_r.
Qed.

(** X21.  When [block] returns, the first coroutine resumed since the call is
    the task it was given, and the resume history from before the call is
    kept. *)
Theorem block_resumes_task_first code (task fuel : nat) envs w (v : T) w' :
  block code task fuel envs w = Done (v, w') →
  ∃ rest, resumed w' = resumed w ++ task :: rest.
Proof.
  unfold block.
  destruct (resume_Some code task (with_returnValue None w))
    as (w0 & spawn & Hstep & Hres & _).
  rewrite Hstep. cbn [obind].
  destruct (drive code fuel envs w0) as [w1| |] eqn:Hdrive; cbn [obind]; try discriminate.
  destruct (returnValue w1); [|discriminate]. intros [= _ <-].
  apply drive_history in Hdrive as [rest Hrest].
  exists rest. rewrite Hrest, Hres. simpl. by rewrite <- app_assoc.
Qed.

Lemma react_same_up_to_error code (env env' : ReactEnv) w {B : Type}
    (k : World T → Outcome B) :
  same_up_to_error env env' →
  obind (react (H := InlineExecutor_Executor1 code) None env w) (fun rw => k rw.2)
  = obind (react (H := InlineExecutor_Executor1 code) None env' w) (fun rw => k rw.2).
Proof.
  intros (Hc1 & Hc2 & Hwait).
  unfold react, react_collect.
  cbn [io.reactor io.with_reactor io.execute InlineExecutor_Executor1].
  rewrite <- Hc1, <- Hc2. rewrite processTimers_closed. cbn beta iota zeta.
  set (wt := effectiveWait _ _). specialize (Hwait wt).
  destruct (poller_wait env wt) as [count events|e],
           (poller_wait env' wt) as [count' events'|e']; try discriminate.
  - by injection Hwait as <- <-.
  - destruct (e =? interrupted)%Z, (e' =? interrupted)%Z; cbn [obind handles after io.res];
      by destruct (execute_span _ _ _).
Qed.

(** X22.  [block] does not look at the result of [react]: its outcome is the same
    whatever error codes the failed waits carried, [EINTR] or not. *)
Theorem block_ignores_wait_errors code (task fuel : nat) envs envs' w :
  Forall2 same_up_to_error envs envs' →
  block code task fuel envs w = block code task fuel envs' w.
Proof.
  intros Hsame. unfold block.
  destruct (resume code (Some task) (with_returnValue None w)) as [w0| |];
    cbn [obind]; try done.
  f_equal. clear w. revert w0.
  induction Hsame as [|env env' envs envs' Henv _ IH]; intros w; [done|].
  cbn [drive]. destruct (drain code fuel w) as [w1| |]; cbn [obind]; try done.
  destruct (exit_test w1); [done|].
  rewrite (react_same_up_to_error code env env' w1 (drive code fuel envs) Henv).
  destruct (react None env' w1) as [rw| |]; cbn [obind]; [apply IH|done|done].
Qed.

(** X23.  The spawn count after a run of calls is the count before, plus the
    number of [spawnDetach] calls, minus the number of runs of its hook,
    modulo 2^64: a hook that runs once too often wraps the count around. *)
Theorem spawn_count_accounting calls w :
  (0 ≤ mSpawnCount (this w) < 2 ^ 64)%Z →
  mSpawnCount (this (fold_left run_call calls w))
  = size_t_wrap (mSpawnCount (this w) + count_spawns calls - count_hooks calls).
Proof.
  revert w. induction calls as [|c calls IH]; intros w Hrange; cbn [fold_left].
  - unfold count_spawns, count_hooks, size_t_wrap. simpl.
    rewrite Z.mod_small; lia.
  - rewrite IH.
    + unfold count_spawns, count_hooks, size_t_wrap.
      destruct c; cbn [List.filter length run_call spawnDetach afterDestroySpawned
                        afterDestroyBlock with_mSpawnCount with_mQueue with_this
                        with_GetReactor with_returnValue this mSpawnCount];
        rewrite ?Nat2Z.inj_succ; unfold size_t_wrap;
        try (f_equal; lia).
      * rewrite <- Z.add_sub_assoc, Zplus_mod_idemp_l. f_equal. lia.
      * rewrite <- Z.add_sub_assoc, Zplus_mod_idemp_l. f_equal. lia.
    + destruct c; cbn; unfold size_t_wrap; try done; apply Z.mod_pos_bound; lia.
Qed.

End InlineDrive.

Lemma drain_runs_queue_in_order_witness :
  ∃ w' ids rest,
    drain Examples.idle_code 2 MoreExamples.world_queued = Done w'
    ∧ mQueue (this MoreExamples.world_queued) = Some <$> ids
    ∧ resumed w' = resumed MoreExamples.world_queued ++ ids ++ rest.
Proof.
  eexists. 
  destruct (drain_runs_queue_in_order Examples.idle_code 2 MoreExamples.world_queued
              (with_resumed [1; 2] (World_new nat)))
    as (ids & rest & Hq & Hres & _).
  - reflexivity.
  - exists ids, rest. split; [reflexivity|]. split; [exact Hq|exact Hres].
Defined.

Lemma drain_completes_without_spawns_witness :
  ∃ w', drain Examples.idle_code 5 MoreExamples.world_queued = Done w'
        ∧ resumed w' = [] ++ [1; 2].
Proof.
  destruct (drain_completes_without_spawns Examples.idle_code [1; 2] 5
              MoreExamples.world_queued) as (w' & Hdone & Hres & _).
  - reflexivity.
  - reflexivity.
  - simpl. lia.
  - exists w'. split; [exact Hdone|exact Hres].
Defined.

Lemma block_resumes_task_first_witness :
  ∃ w' rest,
    block Examples.sleeper_code 0 4 [Examples.env_sleep] (World_new nat) = Done (42, w')
    ∧ resumed w' = [] ++ 0 :: rest.
Proof.
  destruct (block Examples.sleeper_code 0 4 [Examples.env_sleep] (World_new nat))
    as [[v w']| |] eqn:Hblock; try (vm_compute in Hblock; discriminate).
  assert (v = 42) as -> by (vm_compute in Hblock; congruence).
  destruct (block_resumes_task_first Examples.sleeper_code 0 4 [Examples.env_sleep]
              (World_new nat) 42 w' Hblock) as [rest Hrest].
  exists w', rest. split; [reflexivity|exact Hrest].
Defined.

Lemma block_ignores_wait_errors_witness :
  block Examples.idle_code 0 4 [Examples.env_eintr] (World_new nat)
  = block Examples.idle_code 0 4 [Examples.env_ebadf] (World_new nat).
Proof.
  apply (block_ignores_wait_errors Examples.idle_code 0 4
           [Examples.env_eintr] [Examples.env_ebadf] (World_new nat)).
  repeat constructor.
Defined.

Lemma spawn_count_accounting_witness :
  mSpawnCount (this (fold_left run_call
                       [SpawnDetach 1; AfterDestroySpawned; AfterDestroySpawned]
                       (World_new nat)))
  = (2 ^ 64 - 1)%Z.
Proof.
  rewrite (spawn_count_accounting
             [SpawnDetach 1; AfterDestroySpawned; AfterDestroySpawned] (World_new nat)).
  - reflexivity.
  - simpl. lia.
Defined.

(** ** The blocking pool *)

Section BlockingPool.
Import Blocking.
Implicit Types (p : BlockingThreadPool) (h : coroutine_handle).

Lemma size_t_wrap_small z : (0 ≤ z < 2 ^ 64)%Z → size_t_wrap z = z.
Proof. intros Hz. unfold size_t_wrap. by apply Z.mod_small. Qed.

Lemma size_t_wrap_add_l a b : size_t_wrap (size_t_wrap a + b) = size_t_wrap (a + b).
Proof. unfold size_t_wrap. apply Zplus_mod_idemp_l. Qed.

Lemma growPool_loop_spec (fuel : nat) p :
  (0 ≤ mThreadCount p)%Z → (mThreadLimits p < 2 ^ 64)%Z → (0 ≤ mIdleCount p < 2 ^ 64)%Z →
  ∃ n : nat,
    started (growPool_loop fuel p) = started p + n
    ∧ mThreadCount (growPool_loop fuel p) = (mThreadCount p + Z.of_nat n)%Z
    ∧ mIdleCount (growPool_loop fuel p) = size_t_wrap (mIdleCount p + Z.of_nat n)
    ∧ Blocking.mQueue (growPool_loop fuel p) = Blocking.mQueue p
    ∧ mThreadLimits (growPool_loop fuel p) = mThreadLimits p
    ∧ n ≤ fuel
    ∧ (n < fuel → growPool_test (growPool_loop fuel p) = false)
    ∧ (∀ j : nat, j < n →
         (size_t_wrap (size_t_wrap (mIdleCount p + Z.of_nat j) * 5)
            < Z.of_nat (length (Blocking.mQueue p)))%Z
         ∧ (mThreadCount p + Z.of_nat j < mThreadLimits p)%Z).
Proof.
  revert p. induction fuel as [|fuel IH]; intros p Hcount Hlimit Hidle; cbn [growPool_loop].
  - exists 0. change (Z.of_nat 0) with 0%Z.
    rewrite !Z.add_0_r, Nat.add_0_r, size_t_wrap_small by done.
    repeat apply conj; try done; intros; lia.
  - destruct (growPool_test p) eqn:Htest.
    + pose proof Htest as Htest'. unfold growPool_test in Htest'.
      apply andb_true_iff in Htest' as [Hbacklog Hroom].
      apply Z.ltb_lt in Hbacklog, Hroom.
      destruct (IH (growPool_step p)) as (n & Hs & Hc & Hi & Hq & Hl & Hn & Hexit & Hmin).
      { simpl. rewrite size_t_wrap_small; lia. }
      { done. }
      { simpl. unfold size_t_wrap. apply Z.mod_pos_bound. lia. }
      simpl in Hs, Hc, Hi, Hq, Hl, Hmin.
      rewrite (size_t_wrap_small (mThreadCount p + 1)) in Hc, Hmin by lia.
      exists (S n). rewrite Hs, Hc, Hi, Hq, Hl, size_t_wrap_add_l.
      repeat apply conj; try done; try lia.
      * f_equal. lia.
      * intros Hlt. apply Hexit. lia.
      * intros [|j] Hj.
        -- rewrite Z.add_0_r, (size_t_wrap_small (mIdleCount p)) by done. lia.
        -- destruct (Hmin j) as [Hb Hr]; [lia|]. rewrite size_t_wrap_add_l in Hb.
           replace (mIdleCount p + Z.of_nat (S j))%Z with (mIdleCount p + 1 + Z.of_nat j)%Z by lia.
           split; [done|lia].
    + exists 0. change (Z.of_nat 0) with 0%Z.
    rewrite !Z.add_0_r, Nat.add_0_r, size_t_wrap_small by done.
      repeat apply conj; try done; intros; lia.
Qed.

(** X24.  [growPool] starts as many threads as it adds to the thread count and
    (modulo 2^64) to the idle count, keeps the queue, stays within the
    thread limit, and stops only when the backlog is at most five handles
    for each idle thread or the limit is reached. *)
Theorem growPool_within_limit p :
  pool_ok p →
  ∃ n : nat,
    started (growPool p) = started p + n
    ∧ mThreadCount (growPool p) = (mThreadCount p + Z.of_nat n)%Z
    ∧ mIdleCount (growPool p) = size_t_wrap (mIdleCount p + Z.of_nat n)
    ∧ Blocking.mQueue (growPool p) = Blocking.mQueue p
    ∧ pool_ok (growPool p)
    ∧ ((Z.of_nat (length (Blocking.mQueue p)) ≤ size_t_wrap (mIdleCount (growPool p) * 5))%Z
       ∨ mThreadCount (growPool p) = mThreadLimits p).
Proof.
  intros ((Hc0 & Hcl) & Hl & Hi). unfold growPool.
  destruct (growPool_loop_spec (Z.to_nat (mThreadLimits p - mThreadCount p)) p)
    as (n & Hs & Hc & Hidle & Hq & Hlim & Hn & Hexit & _); try done.
  exists n. split; [done|]. split; [done|]. split; [done|]. split; [done|]. split.
  - unfold pool_ok. rewrite Hc, Hlim, Hidle. unfold size_t_wrap.
    pose proof (Z.mod_pos_bound (mIdleCount p + Z.of_nat n) (2 ^ 64)). lia.
  - destruct (decide (n < Z.to_nat (mThreadLimits p - mThreadCount p))) as [Hlt|Hge].
    + specialize (Hexit Hlt). unfold growPool_test in Hexit.
      apply andb_false_iff in Hexit as [Hb|Hr].
      * left. apply Z.ltb_ge in Hb. by rewrite Hq in Hb.
      * right. apply Z.ltb_ge in Hr. rewrite Hlim in Hr. rewrite Hc in Hr |- *. lia.
    + right. rewrite Hc. lia.
Qed.

(** X25.  [growPool] starts no thread it has no backlog for: while the idle
    count cannot wrap, each thread is started with more than five queued
    handles for each thread idle at that time, and below the limit. *)
Theorem growPool_starts_only_on_backlog p (j : nat) :
  pool_ok p →
  ((mIdleCount p + (mThreadLimits p - mThreadCount p)) * 5 < 2 ^ 64)%Z →
  j < started (growPool p) - started p →
  ((mIdleCount p + Z.of_nat j) * 5 < Z.of_nat (length (Blocking.mQueue p)))%Z
  ∧ (mThreadCount p + Z.of_nat j < mThreadLimits p)%Z.
Proof.
  intros ((Hc0 & Hcl) & Hl & Hi) Hnowrap. unfold growPool.
  destruct (growPool_loop_spec (Z.to_nat (mThreadLimits p - mThreadCount p)) p)
    as (n & Hs & _ & _ & _ & _ & Hn & _ & Hmin); try done.
  rewrite Hs. intros Hj. destruct (Hmin j) as [Hb Hr]; [lia|].
  rewrite (size_t_wrap_small (mIdleCount p + Z.of_nat j)) in Hb by lia.
  rewrite size_t_wrap_small in Hb by lia. done.
Qed.

Lemma growPool_loop_keeps_limit (fuel : nat) p :
  mThreadLimits (growPool_loop fuel p) = mThreadLimits p.
Proof.
  revert p. induction fuel as [|fuel IH]; intros p; cbn [growPool_loop]; [done|].
  destruct (growPool_test p); [|done]. by rewrite IH.
Qed.

(** X26.  One call of [execute], all of it under the mutex, appends the handle
    at the back of the queue, starts as many threads as it adds to the
    thread count, and keeps the thread limit and the pool within it; when
    it returns, the backlog is at most five handles for each idle thread,
    or the pool is at its limit. *)
Theorem blocking_execute_appends_and_grows h p :
  pool_ok p →
  Blocking.mQueue (execute h p) = Blocking.mQueue p ++ [h]
  ∧ pool_ok (execute h p)
  ∧ mThreadLimits (execute h p) = mThreadLimits p
  ∧ (∃ n : nat, started (execute h p) = started p + n
                ∧ mThreadCount (execute h p) = (mThreadCount p + Z.of_nat n)%Z)
  ∧ ((Z.of_nat (length (Blocking.mQueue (execute h p)))
        ≤ size_t_wrap (mIdleCount (execute h p) * 5))%Z
     ∨ mThreadCount (execute h p) = mThreadLimits (execute h p)).
Proof.
  intros Hok. unfold execute.
  set (q := {| Blocking.mQueue := Blocking.mQueue p ++ [h];
               mIdleCount := mIdleCount p; mThreadCount := mThreadCount p;
               mThreadLimits := mThreadLimits p; started := started p |}).
  assert (pool_ok q) as Hq by exact Hok.
  destruct (growPool_within_limit q Hq) as (n & Hs & Hc & _ & Hqueue & Hok' & Hexit).
  assert (mThreadLimits (growPool q) = mThreadLimits p) as Hl
    by apply (growPool_loop_keeps_limit _ q).
  split; [by rewrite Hqueue|]. split; [done|]. split; [done|]. split.
  - exists n. by rewrite Hs, Hc.
  - rewrite Hqueue, Hl. exact Hexit.
Qed.

End BlockingPool.

Lemma growPool_starts_only_on_backlog_witness :
  ((Blocking.mIdleCount MoreExamples.pool_backlog + Z.of_nat 1) * 5
     < Z.of_nat (length (Blocking.mQueue MoreExamples.pool_backlog)))%Z
  ∧ (Blocking.mThreadCount MoreExamples.pool_backlog + Z.of_nat 1
       < Blocking.mThreadLimits MoreExamples.pool_backlog)%Z.
Proof.
  apply (growPool_starts_only_on_backlog MoreExamples.pool_backlog 1).
  - unfold pool_ok. simpl. lia.
  - simpl. lia.
  - vm_compute. lia.
Defined.

Lemma blocking_execute_appends_and_grows_witness :
  Blocking.mQueue (Blocking.execute (Some 3) MoreExamples.pool_backlog)
  = Blocking.mQueue MoreExamples.pool_backlog ++ [Some 3].
Proof.
  apply (blocking_execute_appends_and_grows (Some 3) MoreExamples.pool_backlog).
  unfold pool_ok. simpl. lia.
Defined.

Lemma growPool_within_limit_witness :
  ∃ n : nat,
    Blocking.started (Blocking.growPool MoreExamples.pool_backlog)
    = Blocking.started MoreExamples.pool_backlog + n
    ∧ Blocking.mThreadCount (Blocking.growPool MoreExamples.pool_backlog)
      = (Blocking.mThreadCount MoreExamples.pool_backlog + Z.of_nat n)%Z.
Proof.
  destruct (growPool_within_limit MoreExamples.pool_backlog)
    as (n & Hs & Hc & _).
  - unfold pool_ok. simpl. lia.
  - exists n. split; [exact Hs|exact Hc].
Defined.
